(** * Column-validation form: configuration store and YAML emitter

    A shallow embedding of [src/App.js]: the React component
    [DataValidationApp] keeps an [AppState] and replaces it through four
    event handlers ([addColumnConfig], [removeColumnConfig],
    [updateColumnConfig], [handleColumnSelect]); [generateYamlConfig]
    serialises the configured columns.

    Conventions of the embedding.
    - A JavaScript string is a [string] (its code units in order); the column
      names of the program are ASCII, for which byte order and UTF-16
      code-unit order agree.
    - A JavaScript array is a [list]; an index argument ([index: number]) is a
      [Z], so that negative indices are inputs too.
    - An optional field is an [option]; a numeric field holds a [number],
      a JavaScript number kept as the text it is printed as, since the
      component stores, tests against [undefined] and prints a bound, and
      never computes with it.
    - A handler is a function from the current state to an [outcome]: the
      exception, if any, that escaped the handler, the exception, if any,
      that its updater raised when React rendered, and the state the
      component holds afterwards.  Events are handled one at a time, each
      after the render that followed the previous one, so the [state] a
      handler closes over and the [prevState] its updater receives are the
      same state. *)

From Stdlib Require Import ZArith Ascii.
From stdpp Require Import base list strings sorting.

Local Open Scope Z_scope.

(** ** JavaScript arrays *)

Module JsArray.

(** [arr[i]]: [undefined] ([None]) outside [0 .. length-1]. *)
Definition get {A} (arr : list A) (i : Z) : option A :=
  if bool_decide (i < 0) then None else arr !! Z.to_nat i.

(** [arr.filter((x, i) => p x i)]. *)
Fixpoint filteri_from {A} (p : A → Z → bool) (i : Z) (arr : list A) : list A :=
  match arr with
  | [] => []
  | x :: rest =>
      if p x i then x :: filteri_from p (i + 1) rest
      else filteri_from p (i + 1) rest
  end.

Definition filteri {A} (p : A → Z → bool) (arr : list A) : list A :=
  filteri_from p 0 arr.

(** [arr.slice(1)]. *)
Definition slice1 {A} (arr : list A) : list A := drop 1 arr.

(** [arr.sort(cmp)]: ECMAScript requires a stable sort; insertion from the
    right is one.  An element goes in front of the first element
    it does not exceed. *)
Fixpoint sort_insert {A} (cmp : A → A → comparison) (x : A) (sorted : list A)
  : list A :=
  match sorted with
  | [] => [x]
  | y :: rest =>
      match cmp x y with
      | Gt => y :: sort_insert cmp x rest
      | _ => x :: y :: rest
      end
  end.

Fixpoint sort {A} (cmp : A → A → comparison) (arr : list A) : list A :=
  match arr with
  | [] => []
  | x :: rest => sort_insert cmp x (sort cmp rest)
  end.

(** [arr.join(sep)]. *)
Fixpoint join (sep : string) (parts : list string) : string :=
  match parts with
  | [] => ""
  | [p] => p
  | p :: rest => p +:+ sep +:+ join sep rest
  end.

End JsArray.

(** [arr.sort()] on an array of strings compares code units. *)
Definition sort_strings (arr : list string) : list string :=
  JsArray.sort String.compare arr.

(** [a.localeCompare(b)], between column names of this program only.
    Collation is host-defined and differs from the order of code units as
    soon as capitals, digits or punctuation decide; two distinct names of the
    hard-coded list first differ at a pair of lower-case letters
    ([universe_parts_at_letters] below), where the default collation orders
    as code units do.  What is stated of [localeCompare] is stated of names
    of that list. *)
Definition localeCompare (a b : string) : comparison := String.compare a b.

(** The first position at which two strings differ, if neither is a prefix
    of the other. *)
Fixpoint first_difference (a b : string) : option (Ascii.ascii * Ascii.ascii) :=
  match a, b with
  | String x a', String y b' =>
      if decide (x = y) then first_difference a' b' else Some (x, y)
  | _, _ => None
  end.

Definition is_lower (x : Ascii.ascii) : bool :=
  let n := Ascii.N_of_ascii x in ((97 <=? n) && (n <=? 122))%N.

(** Two strings part at a pair of lower-case letters. *)
Definition part_at_letters (a b : string) : bool :=
  match first_difference a b with
  | Some (x, y) => is_lower x && is_lower y
  | None => false
  end.

(** ** Data model (the TypeScript interfaces) *)

Inductive ValueType := TString | TInteger | TBoolean | TFloat.

(** A JavaScript number (a double), kept as the text [`${n}`] gives it:
    [0] is [printed_as "0"], [-2.5] is [printed_as "-2.5"], [1e21] is
    [printed_as "1e+21"].  The text determines the number up to the sign of
    zero, and the component only stores a bound, tests it against
    [undefined] and prints it. *)
Record number := printed_as {
  number_text : string;
}.

Record ValidationRule := mkRule {
  type : option ValueType;
  regex : option string;
  allowedValues : option (list string);
  min : option number;
  max : option number;
}.

Record ColumnConfig := mkColumn {
  name : string;
  validation : ValidationRule;
}.

Record AppState := mkState {
  columnConfigs : list ColumnConfig;
  availableColumns : list string;
  loading : bool;
  error : option string;
  yamlConfig : string;
  configSaved : bool;
}.

Global Instance ValueType_eq_dec : EqDecision ValueType.
Proof. solve_decision. Defined.
Global Instance number_eq_dec : EqDecision number.
Proof. solve_decision. Defined.
Global Instance ValidationRule_eq_dec : EqDecision ValidationRule.
Proof. solve_decision. Defined.
Global Instance ColumnConfig_eq_dec : EqDecision ColumnConfig.
Proof. solve_decision. Defined.
Global Instance AppState_eq_dec : EqDecision AppState.
Proof. solve_decision. Defined.

Definition initialState : AppState := {|
  columnConfigs := [];
  availableColumns := [
    "store_id";
    "zone_name";
    "machine_project_id";
    "fleet_project_id";
    "cluster_name";
    "location";
    "node_count";
    "cluster_ipv4_cidr";
    "services_ipv4_cidr";
    "external_load_balancer_ipv4_address_pools";
    "sync_repo";
    "sync_branch";
    "sync_dir";
    "secrets_project_id";
    "git_token_secrets_manager_name";
    "cluster_version";
    "maintenance_window_start";
    "maintenance_window_end";
    "maintenance_window_recurrence";
    "maintenance_exclusion_name_1";
    "maintenance_exclusion_start_1";
    "maintenance_exclusion_end_1";
    "subnet_vlans";
    "recreate_on_delete"
  ];
  loading := false;
  error := None;
  yamlConfig := "";
  configSaved := false;
|}.

(** The universe of column names is the hard-coded initial pool. *)
Definition universe : list string := availableColumns initialState.

(** ** Handlers *)

Inductive exn := TypeError.

(** [thrown]: the exception that left the handler.  [render_error]: the
    exception the updater given to [setState] raised when React ran it to
    render; the handler has returned by then and, the tree having no error
    boundary, React unmounts the component.  [next]: the state the component
    holds afterwards, or held last when it is unmounted. *)
Record outcome := mkOutcome {
  thrown : option exn;
  render_error : option exn;
  next : AppState;
}.

(** The handler ran to its end and [setState] installed [s']. *)
Definition installed (s' : AppState) : outcome :=
  {| thrown := None; render_error := None; next := s' |}.

(** The handler returned without calling [setState]. *)
Definition skipped (s : AppState) : outcome :=
  {| thrown := None; render_error := None; next := s |}.

(** The handler itself read a property of [undefined]: the [TypeError]
    escapes it before [setState] is reached and the component still holds
    [s]. *)
Definition raised (s : AppState) : outcome :=
  {| thrown := Some TypeError; render_error := None; next := s |}.

(** The updater read a property of [undefined]: nothing leaves the handler,
    the [TypeError] is raised at render and the component, which held [s],
    is unmounted. *)
Definition crashed (s : AppState) : outcome :=
  {| thrown := None; render_error := Some TypeError; next := s |}.

Definition addColumnConfig (state : AppState) : outcome :=
  match availableColumns state with
  | newColumnName :: _ =>
      let newConfig :=
        {| name := newColumnName;
           validation := {| type := Some TString; regex := None;
                            allowedValues := None; min := None; max := None |} |} in
      installed
        {| columnConfigs := columnConfigs state ++ [newConfig];
           availableColumns := JsArray.slice1 (availableColumns state);
           loading := loading state;
           error := error state;
           yamlConfig := yamlConfig state;
           configSaved := false |}
  | [] => skipped state
  end.

Definition removeColumnConfig (index : Z) (state : AppState) : outcome :=
  match JsArray.get (columnConfigs state) index with
  | None => raised state
  | Some c =>
      let removedColumn := name c in
      installed
        {| columnConfigs :=
             JsArray.filteri (λ _ i, negb (i =? index)) (columnConfigs state);
           availableColumns :=
             sort_strings (availableColumns state ++ [removedColumn]);
           loading := loading state;
           error := error state;
           yamlConfig := yamlConfig state;
           configSaved := false |}
  end.

(** [Partial<ValidationRule>] as the handlers build it: a key is left out
    ([None]) or given ([Some v]), and a given value may itself be
    [undefined] ([Some None]), as the min and max inputs send when cleared. *)
Record PartialRule := mkPartialRule {
  p_type : option (option ValueType);
  p_regex : option (option string);
  p_allowedValues : option (option (list string));
  p_min : option (option number);
  p_max : option (option number);
}.

(** [Partial<ColumnConfig>]. *)
Record PartialConfig := mkPartialConfig {
  p_name : option string;
  p_validation : option PartialRule;
}.

(** One key of [{...old, ...given}]. *)
Definition spread_key {A} (old : A) (given : option A) : A :=
  match given with
  | Some v => v
  | None => old
  end.

(** [{...rule, ...partial}]. *)
Definition spread_rule (rule : ValidationRule) (partial : PartialRule)
  : ValidationRule :=
  {| type := spread_key (type rule) (p_type partial);
     regex := spread_key (regex rule) (p_regex partial);
     allowedValues := spread_key (allowedValues rule) (p_allowedValues partial);
     min := spread_key (min rule) (p_min partial);
     max := spread_key (max rule) (p_max partial) |}.

(** [{}]. *)
Definition empty_partial : PartialRule :=
  {| p_type := None; p_regex := None; p_allowedValues := None;
     p_min := None; p_max := None |}.

Definition updateColumnConfig (index : Z) (newConfig : PartialConfig)
    (prevState : AppState) : outcome :=
  let updatedConfigs := columnConfigs prevState in
  match JsArray.get updatedConfigs index with
  | None => crashed prevState
  | Some old =>
      let merged :=
        {| name := spread_key (name old) (p_name newConfig);
           validation :=
             spread_rule (validation old)
               (default empty_partial (p_validation newConfig)) |} in
      installed
        {| columnConfigs := <[Z.to_nat index := merged]> updatedConfigs;
           availableColumns := availableColumns prevState;
           loading := loading prevState;
           error := error prevState;
           yamlConfig := yamlConfig prevState;
           configSaved := false |}
  end.

Definition handleColumnSelect (index : Z) (selectedColumn : string)
    (prevState : AppState) : outcome :=
  match JsArray.get (columnConfigs prevState) index with
  | None => crashed prevState
  | Some old =>
      let oldColumnName := name old in
      let updatedConfigs :=
        <[Z.to_nat index :=
            {| name := selectedColumn; validation := validation old |}]>
          (columnConfigs prevState) in
      let updatedAvailable :=
        sort_strings
          (filter (λ col, col ≠ selectedColumn) (availableColumns prevState)
             ++ [oldColumnName]) in
      installed
        {| columnConfigs := updatedConfigs;
           availableColumns := updatedAvailable;
           loading := loading prevState;
           error := error prevState;
           yamlConfig := yamlConfig prevState;
           configSaved := false |}
  end.

(** The rows the component renders. *)
Definition sortedColumnConfigs (state : AppState) : list ColumnConfig :=
  JsArray.sort (λ a b, localeCompare (name a) (name b)) (columnConfigs state).

(** The operations of the store as the specification names them. *)
Definition addColumn : AppState → outcome := addColumnConfig.
Definition removeColumn : Z → AppState → outcome := removeColumnConfig.
Definition renameColumn : Z → string → AppState → outcome := handleColumnSelect.
Definition updateValidation (index : Z) (partialRule : PartialRule)
  : AppState → outcome :=
  updateColumnConfig index
    {| p_name := None; p_validation := Some partialRule |}.

(** ** JavaScript objects used as string-keyed maps *)

Module JsObject.

(** The own enumerable properties, in creation order; keys are unique. *)
Abbreviation t V := (list (string * V)) (only parsing).

Definition empty {V} : t V := [].

(** An ordinary assignment [o[k] = v]: an existing property keeps its
    place and takes the new value, a new one goes last. *)
Fixpoint assign {V} (k : string) (v : V) (o : t V) : t V :=
  match o with
  | [] => [(k, v)]
  | (k', v') :: rest =>
      if decide (k' = k) then (k, v) :: rest else (k', v') :: assign k v rest
  end.

(** [o[k] = v] for an object [v]: the key [__proto__] reaches the setter
    inherited from [Object.prototype], which replaces the prototype and
    creates no own property. *)
Definition set {V} (k : string) (v : V) (o : t V) : t V :=
  if decide (k = "__proto__") then o else assign k v o.

Definition digit (a : Ascii.ascii) : option N :=
  let n := Ascii.N_of_ascii a in
  if ((48 <=? n) && (n <=? 57))%N then Some (n - 48)%N else None.

Fixpoint digits (s : string) (acc : N) : option N :=
  match s with
  | EmptyString => Some acc
  | String a rest =>
      match digit a with
      | Some d => digits rest (10 * acc + d)%N
      | None => None
      end
  end.

(** A key is an array index when it is the canonical decimal numeral of an
    integer in [0 .. 2^32 - 2]. *)
Definition array_index (k : string) : option N :=
  match k with
  | EmptyString => None
  | String a rest =>
      match digit a with
      | None => None
      | Some 0%N => if decide (rest = EmptyString) then Some 0%N else None
      | Some _ =>
          match digits k 0 with
          | Some n => if (n <? 2 ^ 32 - 1)%N then Some n else None
          | None => None
          end
      end
  end.

Definition indexed {V} (o : t V) : list (N * (string * V)) :=
  omap (λ kv, (λ n, (n, kv)) <$> array_index kv.1) o.

Definition named {V} (o : t V) : list (string * V) :=
  filter (λ kv, array_index kv.1 = None) o.

(** [Object.entries(o)]: array-index keys in ascending numeric order, then
    the other keys in creation order. *)
Definition entries {V} (o : t V) : list (string * V) :=
  (JsArray.sort (λ a b, N.compare a.1 b.1) (indexed o)).*2 ++ named o.

End JsObject.

(** ** The YAML emitter *)

Definition nl : string := String "010"%char EmptyString.
Definition dquote : string := String "034"%char EmptyString.
Definition backslash : string := String "092"%char EmptyString.

Definition hex_digit (n : N) : Ascii.ascii :=
  match n with
  | 0 => "0" | 1 => "1" | 2 => "2" | 3 => "3" | 4 => "4" | 5 => "5"
  | 6 => "6" | 7 => "7" | 8 => "8" | 9 => "9" | 10 => "a" | 11 => "b"
  | 12 => "c" | 13 => "d" | 14 => "e" | _ => "f"
  end%N%char.

(** One code unit of a JSON string literal. *)
Definition json_escape (a : Ascii.ascii) : string :=
  let n := Ascii.N_of_ascii a in
  if (n =? 34)%N then backslash +:+ dquote
  else if (n =? 92)%N then backslash +:+ backslash
  else if (n =? 8)%N then backslash +:+ "b"
  else if (n =? 12)%N then backslash +:+ "f"
  else if (n =? 10)%N then backslash +:+ "n"
  else if (n =? 13)%N then backslash +:+ "r"
  else if (n =? 9)%N then backslash +:+ "t"
  else if (n <? 32)%N then
    backslash +:+ "u00"
      +:+ String (hex_digit (n / 16)) (String (hex_digit (n mod 16)) EmptyString)
  else String a EmptyString.

Fixpoint json_escape_string (s : string) : string :=
  match s with
  | EmptyString => EmptyString
  | String a rest => json_escape a +:+ json_escape_string rest
  end.

Definition json_quote (s : string) : string :=
  dquote +:+ json_escape_string s +:+ dquote.

(** [JSON.stringify] of an array of strings. *)
Definition JSON_stringify (values : list string) : string :=
  "[" +:+ JsArray.join "," (json_quote <$> values) +:+ "]".

(** The text of a [type] value. *)
Definition type_text (ty : ValueType) : string :=
  match ty with
  | TString => "string"
  | TInteger => "integer"
  | TBoolean => "boolean"
  | TFloat => "float"
  end.

Definition header : string :=
  "# Validation Configuration" +:+ nl +:+
  "# This file defines the validation rules for your data." +:+ nl +:+
  "# Each column in your data file should have an entry here." +:+ nl +:+
  nl +:+
  "validations:" +:+ nl.

(** The inner template literal, one mapping entry. *)
Definition entry (kv : string * ValidationRule) : string :=
  let '(column, rules) := kv in
  "  " +:+ column +:+ ":" +:+ nl +:+
  "    type: " +:+
    match type rules with
    | Some ty => type_text ty
    | None => "string"
    end +:+ nl +:+
  "    " +:+
    match regex rules with
    | Some r => if decide (r = "") then "" else "regex: " +:+ dquote +:+ r +:+ dquote
    | None => ""
    end +:+ nl +:+
  "    " +:+
    match allowedValues rules with
    | Some values => "allowed_values: " +:+ JSON_stringify values
    | None => ""
    end +:+ nl +:+
  "    " +:+
    match min rules with
    | Some n => "min: " +:+ number_text n
    | None => ""
    end +:+ nl +:+
  "    " +:+
    match max rules with
    | Some n => "max: " +:+ number_text n
    | None => ""
    end.

(** The object [config] once the [forEach] has run. *)
Definition config_of (columnConfigs : list ColumnConfig)
  : JsObject.t ValidationRule :=
  foldl (λ config col, JsObject.set (name col) (validation col) config)
    JsObject.empty columnConfigs.

Definition generateYamlConfig (columnConfigs : list ColumnConfig) : string :=
  header +:+
  JsArray.join nl (entry <$> JsObject.entries (config_of columnConfigs)) +:+
  nl.

(** The emitter as the specification names it. *)
Definition emit : list ColumnConfig → string := generateYamlConfig.

(** [haystack.includes(needle)], to speak about the text of a document. *)
Fixpoint includes (haystack needle : string) : bool :=
  String.prefix needle haystack
  || match haystack with
     | EmptyString => false
     | String _ rest => includes rest needle
     end.

(** ** Sequences of store operations and the properties stated of them *)

Inductive op :=
  | AddColumn
  | RemoveColumn (index : Z)
  | RenameColumn (index : Z) (newName : string).

Definition apply_op (o : op) : AppState → outcome :=
  match o with
  | AddColumn => addColumn
  | RemoveColumn index => removeColumn index
  | RenameColumn index newName => renameColumn index newName
  end.

(** The states the component holds after each operation, in order. *)
Fixpoint trace (ops : list op) (s : AppState) : list AppState :=
  match ops with
  | [] => []
  | o :: rest => let s' := next (apply_op o s) in s' :: trace rest s'
  end.

(** The state after the last operation. *)
Fixpoint run (ops : list op) (s : AppState) : AppState :=
  match ops with
  | [] => s
  | o :: rest => run rest (next (apply_op o s))
  end.

Definition in_range (index : Z) (s : AppState) : Prop :=
  0 ≤ index < Z.of_nat (length (columnConfigs s)).

Global Instance in_range_dec index s : Decision (in_range index s).
Proof. unfold in_range. apply _. Defined.

(** What the interface guarantees of the operations it sends. *)
Definition admissible (o : op) (s : AppState) : Prop :=
  match o with
  | AddColumn => True
  | RemoveColumn index => in_range index s
  | RenameColumn index newName =>
      in_range index s ∧ newName ∈ availableColumns s
  end.

Fixpoint admissible_sequence (ops : list op) (s : AppState) : Prop :=
  match ops with
  | [] => True
  | o :: rest => admissible o s ∧ admissible_sequence rest (next (apply_op o s))
  end.

Global Instance admissible_dec o s : Decision (admissible o s).
Proof. destruct o; simpl; apply _. Defined.

Global Instance admissible_sequence_dec ops s :
  Decision (admissible_sequence ops s).
Proof. revert s. induction ops; simpl; intros; apply _. Defined.

(** The names claimed by a configuration. *)
Definition configured (s : AppState) : list string := name <$> columnConfigs s.

(** The configured names and the pool are disjoint and together make [U]. *)
Definition partitions (U : list string) (s : AppState) : Prop :=
  (∀ x, x ∈ configured s → x ∉ availableColumns s)
  ∧ (∀ x, x ∈ U ↔ x ∈ configured s ∨ x ∈ availableColumns s).

(** [U] is partitioned after every operation of every admissible sequence. *)
Definition partitioned_throughout (U : list string) : Prop :=
  ∀ ops, admissible_sequence ops initialState →
         Forall (partitions U) (trace ops initialState).

(** The bookkeeping invariant in the form the handlers preserve: the
    configured names followed by the pool rearrange the universe. *)
Definition accounts (s : AppState) : Prop :=
  configured s ++ availableColumns s ≡ₚ universe.

(** The pool is in ascending code-unit order. *)
Definition pool_sorted (s : AppState) : Prop :=
  StronglySorted String.le (availableColumns s).

(** An operation that puts a name back into the pool and sorts it. *)
Definition returns_a_name (o : op) (s : AppState) : Prop :=
  match o with
  | AddColumn => False
  | RemoveColumn index | RenameColumn index _ => in_range index s
  end.

(** The configuration [addColumnConfig] creates for a name. *)
Definition fresh_config (n : string) : ColumnConfig :=
  {| name := n;
     validation := {| type := Some TString; regex := None;
                      allowedValues := None; min := None; max := None |} |}.

(** What a shallow merge does to one field, in the words of the
    specification: a given value replaces the old one, an omitted field keeps
    it. *)
Definition merged_field {A} (old : A) (given : option A) (new : A) : Prop :=
  match given with
  | Some v => new = v
  | None => new = old
  end.

(** The lines of a mapping entry, in the words of the specification: the key,
    a [type] line that is always there, and one line per optional field,
    left blank when the field is not emitted. *)
Definition field_line (label : string) (value : option string) : string :=
  "    " +:+
  match value with
  | Some text => label +:+ ": " +:+ text
  | None => ""
  end.

Definition entry_lines (column : string) (rules : ValidationRule) : list string :=
  [ "  " +:+ column +:+ ":";
    field_line "type" (Some (type_text (default TString (type rules))));
    field_line "regex"
      (r ← regex rules;
       if decide (r = "") then None else Some (dquote +:+ r +:+ dquote));
    field_line "allowed_values" (JSON_stringify <$> allowedValues rules);
    field_line "min" (number_text <$> min rules);
    field_line "max" (number_text <$> max rules) ].

(** The entries of an object that carry a given key. *)
Definition with_key {V} (k : string) (o : JsObject.t V) : list (string * V) :=
  filter (λ kv, kv.1 = k) o.

(** ** The rest of the component: YAML actions, inputs and rendering *)

Module JsString.

(** [s.split(sep)] for a separator of one code unit: never empty, the empty
    string splits into one empty piece. *)
Fixpoint split (sep : Ascii.ascii) (s : string) : list string :=
  match s with
  | EmptyString => [EmptyString]
  | String c rest =>
      if decide (c = sep) then EmptyString :: split sep rest
      else match split sep rest with
           | piece :: pieces => String c piece :: pieces
           | [] => [String c EmptyString]
           end
  end.

(** White space and line terminators among the code units below 256: tab,
    line feed, vertical tab, form feed, carriage return, space and
    no-break space. *)
Definition is_space (c : Ascii.ascii) : bool :=
  let n := Ascii.N_of_ascii c in
  ((9 <=? n) && (n <=? 13) || (n =? 32) || (n =? 160))%N.

Fixpoint trimStart (s : string) : string :=
  match s with
  | EmptyString => EmptyString
  | String c rest => if is_space c then trimStart rest else s
  end.

Fixpoint trimEnd (s : string) : string :=
  match s with
  | EmptyString => EmptyString
  | String c rest =>
      match trimEnd rest with
      | EmptyString => if is_space c then EmptyString else String c EmptyString
      | kept => String c kept
      end
  end.

(** [s.trim()]. *)
Definition trim (s : string) : string := trimEnd (trimStart s).

End JsString.

(** [handleGenerateConfig]. *)
Definition handleGenerateConfig (state : AppState) : outcome :=
  let yaml := generateYamlConfig (columnConfigs state) in
  installed
    {| columnConfigs := columnConfigs state;
       availableColumns := availableColumns state;
       loading := loading state;
       error := error state;
       yamlConfig := yaml;
       configSaved := false |}.

(** The file the browser is asked to save: the [Blob], its type and the
    [download] attribute of the link that is clicked. *)
Record download := mkDownload {
  file_name : string;
  file_type : string;
  file_content : string;
}.

(** [handleSaveConfig]: the new state and the file handed to the browser. *)
Definition handleSaveConfig (state : AppState) : outcome * download :=
  let yaml := generateYamlConfig (columnConfigs state) in
  (installed
     {| columnConfigs := columnConfigs state;
        availableColumns := availableColumns state;
        loading := loading state;
        error := error state;
        yamlConfig := yaml;
        configSaved := true |},
   {| file_name := "validation_config.yaml";
      file_type := "text/yaml";
      file_content := yaml |}).

(** The text of the allowed-values box as it is parsed on every change:
    [text.split(',').map((v) => v.trim()).filter((v) => v !== '')]. *)
Definition parseAllowedValues (text : string) : list string :=
  filter (λ v, v ≠ EmptyString) (JsString.trim <$> JsString.split "," text).

(** The text the allowed-values box is given back:
    [allowedValues ? allowedValues.join(', ') : '']. *)
Definition showAllowedValues (values : option (list string)) : string :=
  match values with
  | Some vs => JsArray.join ", " vs
  | None => EmptyString
  end.

(** A partial rule with one key. *)
Definition only_type (ty : ValueType) : PartialRule :=
  {| p_type := Some (Some ty); p_regex := None; p_allowedValues := None;
     p_min := None; p_max := None |}.
Definition only_regex (text : string) : PartialRule :=
  {| p_type := None; p_regex := Some (Some text); p_allowedValues := None;
     p_min := None; p_max := None |}.
Definition only_allowedValues (values : list string) : PartialRule :=
  {| p_type := None; p_regex := None; p_allowedValues := Some (Some values);
     p_min := None; p_max := None |}.
Definition only_min (value : option number) : PartialRule :=
  {| p_type := None; p_regex := None; p_allowedValues := None;
     p_min := Some value; p_max := None |}.
Definition only_max (value : option number) : PartialRule :=
  {| p_type := None; p_regex := None; p_allowedValues := None;
     p_min := None; p_max := Some value |}.

(** What a rendered row and the buttons send.  The minimum and maximum
    inputs carry the number already read from their text, or [undefined]
    for an empty text. *)
Inductive action :=
  | ClickAdd
  | ClickRemove (index : Z)
  | SelectColumn (index : Z) (value : string)
  | SelectType (index : Z) (value : ValueType)
  | ChangeRegex (index : Z) (text : string)
  | ChangeAllowedValues (index : Z) (text : string)
  | ChangeMin (index : Z) (value : option number)
  | ChangeMax (index : Z) (value : option number)
  | ClickGenerate
  | ClickSave.

Definition validation_only (partial : PartialRule) : PartialConfig :=
  {| p_name := None; p_validation := Some partial |}.

Definition perform (a : action) : AppState → outcome :=
  match a with
  | ClickAdd => addColumnConfig
  | ClickRemove index => removeColumnConfig index
  | SelectColumn index value => handleColumnSelect index value
  | SelectType index value =>
      updateColumnConfig index (validation_only (only_type value))
  | ChangeRegex index text =>
      updateColumnConfig index (validation_only (only_regex text))
  | ChangeAllowedValues index text =>
      updateColumnConfig index
        (validation_only (only_allowedValues (parseAllowedValues text)))
  | ChangeMin index value =>
      updateColumnConfig index (validation_only (only_min value))
  | ChangeMax index value =>
      updateColumnConfig index (validation_only (only_max value))
  | ClickGenerate => handleGenerateConfig
  | ClickSave => λ state, (handleSaveConfig state).1
  end.

(** The state after a list of actions. *)
Fixpoint session (acts : list action) (s : AppState) : AppState :=
  match acts with
  | [] => s
  | a :: rest => session rest (next (perform a s))
  end.

(** The options of the column select of a row:
    [state.availableColumns.concat(columnConfig.name).sort()]. *)
Definition columnOptions (state : AppState) (columnConfig : ColumnConfig)
  : list string :=
  sort_strings (availableColumns state ++ [name columnConfig]).

(** The actions the rendered interface can send in a state: rows exist for
    the configured columns only, and a select reports a change to an option
    other than the one it shows. *)
Definition sendable (a : action) (s : AppState) : Prop :=
  match a with
  | ClickAdd | ClickGenerate | ClickSave => True
  | ClickRemove index | SelectType index _ | ChangeRegex index _
  | ChangeAllowedValues index _ | ChangeMin index _ | ChangeMax index _ =>
      in_range index s
  | SelectColumn index value =>
      in_range index s ∧ value ∈ availableColumns s
  end.

Fixpoint sendable_sequence (acts : list action) (s : AppState) : Prop :=
  match acts with
  | [] => True
  | a :: rest => sendable a s ∧ sendable_sequence rest (next (perform a s))
  end.

Global Instance sendable_dec a s : Decision (sendable a s).
Proof. destruct a; simpl; apply _. Defined.

Global Instance sendable_sequence_dec acts s :
  Decision (sendable_sequence acts s).
Proof. revert s. induction acts; simpl; intros; apply _. Defined.

(** Which inputs a row renders for its type. *)
Definition showsRegex (c : ColumnConfig) : bool :=
  bool_decide (type (validation c) = Some TString).
Definition showsAllowedValues (c : ColumnConfig) : bool :=
  bool_decide (type (validation c) = Some TString
               ∨ type (validation c) = Some TInteger
               ∨ type (validation c) = Some TFloat).
Definition showsBounds (c : ColumnConfig) : bool :=
  bool_decide (type (validation c) = Some TInteger
               ∨ type (validation c) = Some TFloat).

(** The add button is disabled. *)
Definition addDisabled (state : AppState) : bool :=
  bool_decide (length (availableColumns state) = 0%nat).

(** When the saved mark is shown, the text shown is the YAML of the
    configurations held. *)
Definition saved_is_current (s : AppState) : Prop :=
  configSaved s = true → yamlConfig s = generateYamlConfig (columnConfigs s).

(** The configurations are in ascending order of name. *)
Definition stored_in_display_order (s : AppState) : Prop :=
  Sorted (λ a b, String.le (name a) (name b)) (columnConfigs s).

(** A value the allowed-values box keeps as typed: not empty, without a
    comma, without white space at either end. *)
Definition kept_value (v : string) : Prop :=
  v ≠ EmptyString
  ∧ JsString.split "," v = [v]
  ∧ JsString.trim v = v.

(** The pair an entry of the document is made from. *)
Definition as_entry (c : ColumnConfig) : string * ValidationRule :=
  (name c, validation c).

(** Two partial rules given one after the other, as a single one: a key
    the second gives wins, a key only the first gives stays. *)
Definition then_partial (first second : PartialRule) : PartialRule :=
  {| p_type := match p_type second with Some v => Some v | None => p_type first end;
     p_regex :=
       match p_regex second with Some v => Some v | None => p_regex first end;
     p_allowedValues :=
       match p_allowedValues second with
       | Some v => Some v
       | None => p_allowedValues first
       end;
     p_min := match p_min second with Some v => Some v | None => p_min first end;
     p_max := match p_max second with Some v => Some v | None => p_max first end |}.

(** The code units of a text. *)
Definition code_units (s : string) : list N :=
  Ascii.N_of_ascii <$> String.list_ascii_of_string s.

(** The row a handler leaves at an index. *)
Definition row_after (a : action) (s : AppState) (index : Z)
  : option ColumnConfig :=
  JsArray.get (columnConfigs (next (perform a s))) index.

(** * Facts about the array primitives *)

Section sort_facts.
Context {A : Type} (cmp : A → A → comparison).

Lemma sort_insert_Permutation x (l : list A) :
  JsArray.sort_insert cmp x l ≡ₚ x :: l.
Proof.
  induction l as [|y l IH]; simpl; [done|].
  destruct (cmp x y); try done.
  rewrite IH. apply Permutation_swap.
Qed.

Lemma sort_Permutation (l : list A) : JsArray.sort cmp l ≡ₚ l.
Proof.
  induction l as [|x l IH]; simpl; [done|].
  by rewrite sort_insert_Permutation, IH.
Qed.

Lemma sort_elem_of x (l : list A) : x ∈ JsArray.sort cmp l ↔ x ∈ l.
Proof. by rewrite sort_Permutation. Qed.

Lemma sort_length (l : list A) : length (JsArray.sort cmp l) = length l.
Proof. by rewrite sort_Permutation. Qed.

(** Sortedness, for any relation the comparison decides. *)
Context (R : relation A).
Hypothesis cmp_le : ∀ x y, cmp x y ≠ Gt → R x y.
Hypothesis cmp_gt : ∀ x y, cmp x y = Gt → R y x.

Lemma sort_insert_HdRel a x (l : list A) :
  R a x → HdRel R a l → HdRel R a (JsArray.sort_insert cmp x l).
Proof.
  intros Hax Hal. destruct l as [|y l]; simpl; [by constructor|].
  inversion_clear Hal. destruct (cmp x y); by constructor.
Qed.

Lemma sort_insert_Sorted x (l : list A) :
  Sorted R l → Sorted R (JsArray.sort_insert cmp x l).
Proof.
  induction 1 as [|y l Hl IH Hhd]; simpl; [by repeat constructor|].
  destruct (cmp x y) eqn:Hxy.
  - repeat constructor; [done..|]. apply cmp_le. by rewrite Hxy.
  - repeat constructor; [done..|]. apply cmp_le. by rewrite Hxy.
  - constructor; [done|]. apply sort_insert_HdRel; [|done]. by apply cmp_gt.
Qed.

Lemma sort_Sorted (l : list A) : Sorted R (JsArray.sort cmp l).
Proof.
  induction l as [|x l IH]; simpl; [constructor|].
  by apply sort_insert_Sorted.
Qed.
End sort_facts.

Lemma compare_le (x y : string) : String.compare x y ≠ Gt → String.le x y.
Proof. unfold String.le, String.leb. by destruct (String.compare x y). Qed.

Lemma compare_gt (x y : string) : String.compare x y = Gt → String.le y x.
Proof.
  unfold String.le, String.leb. rewrite (String.compare_antisym x y).
  by destruct (String.compare y x).
Qed.

Lemma sort_strings_Permutation (l : list string) : sort_strings l ≡ₚ l.
Proof. apply sort_Permutation. Qed.

Lemma sort_strings_sorted (l : list string) :
  StronglySorted String.le (sort_strings l).
Proof.
  apply Sorted_StronglySorted; [apply _|].
  apply sort_Sorted; [apply compare_le | apply compare_gt].
Qed.

Section array_facts.
Context {A : Type}.
Implicit Types (l : list A) (i k : Z).

Lemma get_Some l i x :
  JsArray.get l i = Some x ↔ 0 ≤ i ∧ l !! Z.to_nat i = Some x.
Proof.
  unfold JsArray.get. case_bool_decide; [|intuition lia].
  split; [done|]. intros [? _]. lia.
Qed.

Lemma get_None l i :
  JsArray.get l i = None ↔ i < 0 ∨ Z.of_nat (length l) ≤ i.
Proof.
  unfold JsArray.get. case_bool_decide; [by intuition|].
  rewrite lookup_ge_None. lia.
Qed.

Lemma get_in_range l i :
  0 ≤ i < Z.of_nat (length l) → ∃ x, JsArray.get l i = Some x.
Proof.
  intros Hi. destruct (JsArray.get l i) as [x|] eqn:Hget; [by exists x|].
  apply get_None in Hget. lia.
Qed.

Lemma filteri_from_above l i k :
  i < k → JsArray.filteri_from (λ _ j, negb (j =? i)) k l = l.
Proof.
  revert k. induction l as [|x l IH]; intros k Hk; simpl; [done|].
  assert ((k =? i) = false) as -> by lia. simpl. f_equal. apply IH. lia.
Qed.

(** Dropping the element at one index: the [filter] of the remove handler
    is list deletion when the index is in range. *)
Lemma filteri_from_delete l i k :
  k ≤ i < k + Z.of_nat (length l) →
  JsArray.filteri_from (λ _ j, negb (j =? i)) k l
  = delete (Z.to_nat (i - k)) l.
Proof.
  revert k. induction l as [|x l IH]; intros k Hk; simpl in *; [lia|].
  destruct (decide (k = i)) as [->|Hne].
  - rewrite Z.eqb_refl, Z.sub_diag. simpl. apply filteri_from_above. lia.
  - assert ((k =? i) = false) as -> by lia. simpl.
    replace (Z.to_nat (i - k)) with (S (Z.to_nat (i - (k + 1)))) by lia.
    simpl. f_equal. apply IH. lia.
Qed.

Lemma filteri_delete l i x :
  JsArray.get l i = Some x →
  JsArray.filteri (λ _ j, negb (j =? i)) l = delete (Z.to_nat i) l.
Proof.
  intros [Hi Hx]%get_Some. apply lookup_lt_Some in Hx.
  unfold JsArray.filteri. rewrite filteri_from_delete by lia.
  by rewrite Z.sub_0_r.
Qed.

Lemma delete_insert_same l (n : nat) x : delete n (<[n:=x]> l) = delete n l.
Proof.
  revert n. induction l as [|y l IH]; intros [|n]; simpl; [done..|].
  f_equal. apply IH.
Qed.

Lemma insert_Permutation l (n : nat) x y :
  l !! n = Some y → <[n:=x]> l ≡ₚ x :: delete n l.
Proof.
  intros Hy. rewrite <-(delete_insert_same l n x).
  apply delete_Permutation, list_lookup_insert_eq.
  by apply lookup_lt_Some in Hy.
Qed.
End array_facts.

(** * The configuration store *)

Lemma universe_NoDup : NoDup universe.
Proof. by apply (bool_decide_unpack _); vm_compute. Qed.

Lemma universe_length : length universe = 24%nat.
Proof. reflexivity. Qed.

(** Any two distinct column names part at a pair of lower-case letters, so
    [localeCompare] and the code-unit comparison order them alike. *)
Lemma universe_parts_at_letters a b :
  a ∈ universe → b ∈ universe → a ≠ b → part_at_letters a b = true.
Proof.
  assert (Forall (λ a, Forall (λ b, a ≠ b → part_at_letters a b = true)
                         universe) universe) as Hall
    by (apply (bool_decide_unpack _); vm_compute; reflexivity).
  intros Ha Hb. eapply Forall_forall in Hall; [|exact Ha].
  eapply Forall_forall in Hall; [|exact Hb]. exact Hall.
Qed.

(** ** The handlers on their normal paths *)

Lemma addColumnConfig_cons s n rest :
  availableColumns s = n :: rest →
  addColumnConfig s
  = installed {| columnConfigs := columnConfigs s ++ [fresh_config n];
                 availableColumns := rest;
                 loading := loading s; error := error s;
                 yamlConfig := yamlConfig s; configSaved := false |}.
Proof. intros Hs. unfold addColumnConfig. by rewrite Hs. Qed.

Lemma addColumnConfig_nil s :
  availableColumns s = [] → addColumnConfig s = skipped s.
Proof. intros Hs. unfold addColumnConfig. by rewrite Hs. Qed.

Lemma removeColumnConfig_Some s i c :
  JsArray.get (columnConfigs s) i = Some c →
  removeColumnConfig i s
  = installed {| columnConfigs := delete (Z.to_nat i) (columnConfigs s);
                 availableColumns := sort_strings (availableColumns s ++ [name c]);
                 loading := loading s; error := error s;
                 yamlConfig := yamlConfig s; configSaved := false |}.
Proof.
  intros Hc. unfold removeColumnConfig. rewrite Hc.
  by rewrite (filteri_delete _ _ _ Hc).
Qed.

Lemma in_range_get s i :
  in_range i s ↔ ∃ c, JsArray.get (columnConfigs s) i = Some c.
Proof.
  split.
  - apply get_in_range.
  - intros [c [Hi Hc]%get_Some]. apply lookup_lt_Some in Hc.
    unfold in_range. lia.
Qed.

Lemma out_of_range_get s i :
  ¬ in_range i s → JsArray.get (columnConfigs s) i = None.
Proof. intros Hi. apply get_None. unfold in_range in Hi. lia. Qed.

(** ** The bookkeeping invariant *)

Lemma pool_without n (pool : list string) :
  NoDup pool → n ∈ pool → pool ≡ₚ n :: filter (λ col, col ≠ n) pool.
Proof.
  intros Hnd Hn. apply NoDup_Permutation; [done| |].
  - constructor; [|by apply NoDup_filter].
    intros [Hne _]%list_elem_of_filter. by apply Hne.
  - intros x. rewrite elem_of_cons, list_elem_of_filter.
    destruct (decide (x = n)) as [->|Hne]; intuition.
Qed.

Lemma remove_accounting (names pool : list string) (k : nat) x :
  names !! k = Some x →
  delete k names ++ (pool ++ [x]) ≡ₚ names ++ pool.
Proof.
  intros Hx. pose proof (delete_Permutation names k x Hx) as Hp.
  remember (delete k names) as d eqn:Hd. clear Hd Hx.
  rewrite Hp, <-Permutation_cons_append. simpl.
  by rewrite <-Permutation_middle.
Qed.

Lemma rename_accounting (names pool : list string) (k : nat) x n :
  names !! k = Some x → NoDup pool → n ∈ pool →
  <[k:=n]> names ++ (filter (λ col, col ≠ n) pool ++ [x]) ≡ₚ names ++ pool.
Proof.
  intros Hx Hnd Hn.
  pose proof (delete_Permutation names k x Hx) as Hp.
  pose proof (insert_Permutation names k n x Hx) as Hi.
  pose proof (pool_without n pool Hnd Hn) as Hw.
  remember (delete k names) as d eqn:Hd.
  remember (<[k:=n]> names) as u eqn:Hu.
  remember (filter (λ col, col ≠ n) pool) as f eqn:Hf.
  clear Hd Hu Hf Hx Hn Hnd.
  rewrite Hi, Hp, Hw, <-Permutation_cons_append. simpl.
  rewrite <-!Permutation_middle. apply Permutation_swap.
Qed.

Lemma accounts_initial : accounts initialState.
Proof. unfold accounts. reflexivity. Qed.

Lemma accounts_NoDup_pool s : accounts s → NoDup (availableColumns s).
Proof.
  intros Hs. unfold accounts in Hs.
  pose proof universe_NoDup as Hu. rewrite <-Hs in Hu.
  by apply NoDup_app in Hu as (_ & _ & ?).
Qed.

Lemma accounts_partitions s : accounts s → partitions universe s.
Proof.
  intros Hs. unfold accounts in Hs.
  pose proof universe_NoDup as Hu. rewrite <-Hs in Hu.
  apply NoDup_app in Hu as (_ & Hdisj & _). split; [done|].
  intros x. by rewrite <-Hs, elem_of_app.
Qed.

Lemma accounts_add s : accounts s → accounts (next (addColumnConfig s)).
Proof.
  intros Hs. destruct (availableColumns s) as [|n rest] eqn:Hpool.
  - by rewrite addColumnConfig_nil.
  - rewrite (addColumnConfig_cons _ _ _ Hpool). unfold accounts, configured in *.
    simpl. rewrite Hpool in Hs. rewrite fmap_app, <-Hs. simpl.
    by rewrite <-(assoc_L (++)).
Qed.

Lemma accounts_remove s i :
  accounts s → accounts (next (removeColumnConfig i s)).
Proof.
  intros Hs. destruct (JsArray.get (columnConfigs s) i) as [c|] eqn:Hc.
  - rewrite (removeColumnConfig_Some _ _ _ Hc). unfold accounts, configured in *.
    simpl. apply get_Some in Hc as [_ Hc].
    rewrite sort_strings_Permutation, <-Hs, list_fmap_delete.
    apply remove_accounting. by rewrite list_lookup_fmap, Hc.
  - unfold removeColumnConfig. by rewrite Hc.
Qed.

Lemma handleColumnSelect_Some s i n c :
  JsArray.get (columnConfigs s) i = Some c →
  handleColumnSelect i n s
  = installed
      {| columnConfigs :=
           <[Z.to_nat i := {| name := n; validation := validation c |}]>
             (columnConfigs s);
         availableColumns :=
           sort_strings
             (filter (λ col, col ≠ n) (availableColumns s) ++ [name c]);
         loading := loading s; error := error s;
         yamlConfig := yamlConfig s; configSaved := false |}.
Proof. intros Hc. unfold handleColumnSelect. by rewrite Hc. Qed.

Lemma accounts_rename s i n :
  accounts s → n ∈ availableColumns s →
  accounts (next (handleColumnSelect i n s)).
Proof.
  intros Hs Hn. destruct (JsArray.get (columnConfigs s) i) as [c|] eqn:Hc.
  - rewrite (handleColumnSelect_Some _ _ _ _ Hc).
    pose proof (accounts_NoDup_pool _ Hs) as Hnd.
    unfold accounts, configured in *. simpl. apply get_Some in Hc as [_ Hc].
    rewrite sort_strings_Permutation, list_fmap_insert, <-Hs. simpl.
    apply rename_accounting; [|done..]. by rewrite list_lookup_fmap, Hc.
  - unfold handleColumnSelect. by rewrite Hc.
Qed.

Lemma accounts_apply_op o s :
  accounts s → admissible o s → accounts (next (apply_op o s)).
Proof.
  intros Hs Ho. destruct o as [|i|i n]; simpl in *.
  - by apply accounts_add.
  - by apply accounts_remove.
  - apply accounts_rename; [done|]. by destruct Ho.
Qed.

Lemma accounts_trace ops s :
  accounts s → admissible_sequence ops s → Forall accounts (trace ops s).
Proof.
  revert s. induction ops as [|o ops IH]; intros s Hs Hops; simpl; [done|].
  destruct Hops as [Ho Hops].
  assert (accounts (next (apply_op o s))) by by apply accounts_apply_op.
  constructor; [done|]. by apply IH.
Qed.

Lemma get_insert_same {A} (l : list A) i x y :
  JsArray.get l i = Some y → JsArray.get (<[Z.to_nat i:=x]> l) i = Some x.
Proof.
  intros [Hi Hy]%get_Some. apply get_Some. split; [done|].
  apply list_lookup_insert_eq. by apply lookup_lt_Some in Hy.
Qed.

Lemma get_insert_other {A} (l : list A) i j x :
  0 ≤ i → j ≠ i → JsArray.get (<[Z.to_nat i:=x]> l) j = JsArray.get l j.
Proof.
  intros Hi Hne. unfold JsArray.get. case_bool_decide; [done|].
  apply list_lookup_insert_ne. lia.
Qed.

(** ** The partition invariant *)

(** C1, with the size of the universe as the program has it: after each
    operation of a sequence of [addColumn], [removeColumn] and [renameColumn]
    from the initial state, every index in range and every new name taken
    from the pool, the configured names and the pool are disjoint and their
    union is the universe, the 24 distinct names of the initial pool. *)
Theorem partition_invariant (ops : list op) :
  admissible_sequence ops initialState →
  NoDup universe ∧ length universe = 24%nat
  ∧ Forall (partitions universe) (trace ops initialState).
Proof.
  intros Hops. split; [apply universe_NoDup|]. split; [apply universe_length|].
  eapply Forall_impl; [|apply accounts_partitions].
  apply accounts_trace; [apply accounts_initial | done].
Qed.

Lemma partition_invariant_witness :
  let ops := [AddColumn; AddColumn; RenameColumn 0 "location"; RemoveColumn 1;
              AddColumn] in
  admissible_sequence ops initialState
  ∧ Forall (partitions universe) (trace ops initialState).
Proof.
  intros ops.
  assert (admissible_sequence ops initialState) as Hops
    by (apply (bool_decide_unpack _); vm_compute; reflexivity).
  split; [exact Hops|]. apply (partition_invariant ops Hops).
Defined.

(** C1 as it is worded fails: no collection of 23 names is partitioned by
    the store, since one [addColumn] already leaves 24 distinct names in
    play. *)
Lemma no_universe_of_23_names :
  ¬ ∃ U : list string, length U = 23%nat ∧ partitioned_throughout U.
Proof.
  intros (U & Hlen & HU).
  specialize (HU [AddColumn] (conj I I)). apply Forall_cons_1 in HU as [HU _].
  destruct HU as [_ HU].
  assert (universe ⊆+ U) as Hsub.
  { apply NoDup_submseteq; [apply universe_NoDup|]. intros x Hx. apply HU.
    pose proof (accounts_add _ accounts_initial) as Hacc.
    unfold accounts in Hacc. rewrite <-Hacc in Hx.
    by apply elem_of_app in Hx. }
  apply submseteq_length in Hsub. rewrite universe_length, Hlen in Hsub. lia.
Qed.

(** ** Removing at an index out of range *)

(** C2, as the handler behaves: for an index out of range [removeColumn]
    fails.  Reading [name] of [undefined] raises a [TypeError] that leaves the
    handler, before [setState] is reached, so the state stays as it was. *)
Theorem removeColumn_out_of_range (s : AppState) (index : Z) :
  ¬ in_range index s →
  thrown (removeColumn index s) = Some TypeError
  ∧ next (removeColumn index s) = s.
Proof.
  intros Hout. unfold removeColumn, removeColumnConfig.
  by rewrite (out_of_range_get _ _ Hout).
Qed.

Lemma removeColumn_out_of_range_witness :
  ¬ in_range (-1) initialState
  ∧ thrown (removeColumn (-1) initialState) = Some TypeError
  ∧ next (removeColumn (-1) initialState) = initialState.
Proof.
  assert (¬ in_range (-1) initialState) as Hout
    by (unfold in_range; simpl; lia).
  split; [exact Hout|]. apply (removeColumn_out_of_range _ _ Hout).
Defined.

(** C2 as it is worded fails: on the initial state, where no index is in
    range, [removeColumn(0)] does not return quietly. *)
Lemma removeColumn_out_of_range_not_silent :
  ¬ (¬ in_range 0 initialState →
     thrown (removeColumn 0 initialState) = None
     ∧ next (removeColumn 0 initialState) = initialState).
Proof.
  intros Hclaim. destruct Hclaim as [Hthrown _].
  - unfold in_range. simpl. lia.
  - discriminate Hthrown.
Qed.

(** ** Which configuration an index names *)

Lemma removeColumn_deletes_at_index s i c :
  JsArray.get (columnConfigs s) i = Some c →
  columnConfigs (next (removeColumn i s)) = delete (Z.to_nat i) (columnConfigs s).
Proof.
  intros Hc. unfold removeColumn. by rewrite (removeColumnConfig_Some _ _ _ Hc).
Qed.

(** C3 does not hold of the handlers: they index [columnConfigs] as it is
    stored, in insertion order, while the rows are rendered from
    [sortedColumnConfigs] and pass their position in that sorted array.  After
    three [addColumn] the first row shows [machine_project_id], yet index 0
    removes, renames and retypes [store_id]. *)
Theorem index_resolved_in_insertion_order :
  let s := run [AddColumn; AddColumn; AddColumn] initialState in
  let integer := {| p_type := Some (Some TInteger); p_regex := None;
                    p_allowedValues := None; p_min := None; p_max := None |} in
  name <$> columnConfigs s = ["store_id"; "zone_name"; "machine_project_id"]
  ∧ name <$> sortedColumnConfigs s
    = ["machine_project_id"; "store_id"; "zone_name"]
  ∧ name <$> columnConfigs (next (removeColumn 0 s))
    = ["zone_name"; "machine_project_id"]
  ∧ name <$> columnConfigs (next (renameColumn 0 "location" s))
    = ["location"; "zone_name"; "machine_project_id"]
  ∧ (λ c, (name c, type (validation c)))
      <$> columnConfigs (next (updateValidation 0 integer s))
    = [("store_id", Some TInteger); ("zone_name", Some TString);
       ("machine_project_id", Some TString)].
Proof. vm_compute. repeat split. Qed.

(** ** Adding a column *)

(** C4: with a non-empty pool [addColumn] claims the first name of the pool,
    appends a configuration for it of type string with no regex, allowed
    values, minimum or maximum, and leaves the rest of the pool, in which the
    name no longer occurs when the pool had no duplicate; with an empty pool
    it leaves the state as it is. *)
Theorem addColumn_claims_first (s : AppState) :
  match availableColumns s with
  | n :: rest =>
      thrown (addColumn s) = None
      ∧ columnConfigs (next (addColumn s))
        = columnConfigs s
            ++ [ {| name := n;
                    validation := {| type := Some TString; regex := None;
                                     allowedValues := None;
                                     min := None; max := None |} |} ]
      ∧ availableColumns (next (addColumn s)) = rest
      ∧ (NoDup (availableColumns s) → n ∉ availableColumns (next (addColumn s)))
  | [] => thrown (addColumn s) = None ∧ next (addColumn s) = s
  end.
Proof.
  unfold addColumn. destruct (availableColumns s) as [|n rest] eqn:Hpool.
  - by rewrite addColumnConfig_nil.
  - rewrite (addColumnConfig_cons _ _ _ Hpool). simpl.
    repeat split; try done.
    intros Hnd. by apply NoDup_cons in Hnd as [? _].
Qed.

Lemma addColumn_claims_first_witness :
  NoDup (availableColumns initialState)
  ∧ "store_id" ∉ availableColumns (next (addColumn initialState)).
Proof.
  assert (NoDup (availableColumns initialState)) as Hnd by apply universe_NoDup.
  split; [exact Hnd|].
  pose proof (addColumn_claims_first initialState) as (_ & _ & _ & H).
  exact (H Hnd).
Defined.

(** ** Updating a validation rule *)

Lemma updateColumnConfig_Some s i pc c :
  JsArray.get (columnConfigs s) i = Some c →
  updateColumnConfig i pc s
  = installed
      {| columnConfigs :=
           <[Z.to_nat i :=
               {| name := spread_key (name c) (p_name pc);
                  validation :=
                    spread_rule (validation c)
                      (default empty_partial (p_validation pc)) |}]>
             (columnConfigs s);
         availableColumns := availableColumns s;
         loading := loading s; error := error s;
         yamlConfig := yamlConfig s; configSaved := false |}.
Proof. intros Hc. unfold updateColumnConfig. by rewrite Hc. Qed.

Lemma spread_key_merged {A} (old : A) given :
  merged_field old given (spread_key old given).
Proof. by destruct given. Qed.

(** C5: for an index in range, [updateValidation] merges the partial rule
    into the rule at that index field by field: a field the partial rule
    gives takes the given value, a field it omits keeps its value.  The name
    at that index, every other configuration and the pool are unchanged. *)
Theorem updateValidation_shallow_merge
    (s : AppState) (index : Z) (partialRule : PartialRule) :
  in_range index s →
  let s' := next (updateValidation index partialRule s) in
  ∃ c c',
    JsArray.get (columnConfigs s) index = Some c
    ∧ thrown (updateValidation index partialRule s) = None
    ∧ JsArray.get (columnConfigs s') index = Some c'
    ∧ name c' = name c
    ∧ merged_field (type (validation c)) (p_type partialRule)
        (type (validation c'))
    ∧ merged_field (regex (validation c)) (p_regex partialRule)
        (regex (validation c'))
    ∧ merged_field (allowedValues (validation c)) (p_allowedValues partialRule)
        (allowedValues (validation c'))
    ∧ merged_field (min (validation c)) (p_min partialRule)
        (min (validation c'))
    ∧ merged_field (max (validation c)) (p_max partialRule)
        (max (validation c'))
    ∧ (∀ j, j ≠ index →
            JsArray.get (columnConfigs s') j = JsArray.get (columnConfigs s) j)
    ∧ length (columnConfigs s') = length (columnConfigs s)
    ∧ configured s' = configured s
    ∧ availableColumns s' = availableColumns s.
Proof.
  intros [c Hc]%in_range_get s'. subst s'. unfold updateValidation.
  rewrite (updateColumnConfig_Some _ _ _ _ Hc). simpl.
  eexists c, _. split; [done|]. split; [done|].
  split; [by eapply get_insert_same|]. simpl.
  repeat (split; [by (done || apply spread_key_merged)|]).
  apply get_Some in Hc as [Hi Hc].
  split; [intros j Hj; by apply get_insert_other|].
  split; [by rewrite length_insert|]. split; [|done].
  unfold configured. simpl. rewrite list_fmap_insert. simpl.
  apply list_insert_id. by rewrite list_lookup_fmap, Hc.
Qed.

Lemma updateValidation_shallow_merge_witness :
  let s := run [AddColumn; AddColumn] initialState in
  let p := {| p_type := Some (Some TInteger); p_regex := None;
              p_allowedValues := None; p_min := Some (Some (printed_as "0"));
              p_max := None |} in
  in_range 1 s
  ∧ ∃ c c',
      JsArray.get (columnConfigs s) 1 = Some c
      ∧ JsArray.get (columnConfigs (next (updateValidation 1 p s))) 1 = Some c'
      ∧ type (validation c') = Some TInteger
      ∧ min (validation c') = Some (printed_as "0")
      ∧ regex (validation c') = regex (validation c).
Proof.
  intros s p.
  assert (in_range 1 s) as Hin by (unfold in_range; simpl; lia).
  split; [exact Hin|].
  destruct (updateValidation_shallow_merge s 1 p Hin)
    as (c & c' & Hc & _ & Hc' & _ & Hty & Hre & _ & Hmin & _).
  exists c, c'. repeat split; assumption.
Defined.

(** ** Renaming a column *)

(** C6: for an index in range and a new name taken from the pool of a state
    in which no name is held twice, [renameColumn] gives the configuration at
    that index the new name and keeps its rule, leaves every other
    configuration alone, and swaps membership exactly: the new name leaves
    the pool and is configured, the previous name is no longer configured and
    is in the pool, and no other name moves. *)
Theorem renameColumn_swaps_membership
    (s : AppState) (index : Z) (newName : string) :
  in_range index s →
  newName ∈ availableColumns s →
  NoDup (configured s ++ availableColumns s) →
  let s' := next (renameColumn index newName s) in
  ∃ c,
    JsArray.get (columnConfigs s) index = Some c
    ∧ thrown (renameColumn index newName s) = None
    ∧ JsArray.get (columnConfigs s') index
      = Some {| name := newName; validation := validation c |}
    ∧ (∀ j, j ≠ index →
            JsArray.get (columnConfigs s') j = JsArray.get (columnConfigs s) j)
    ∧ length (columnConfigs s') = length (columnConfigs s)
    ∧ (newName ∉ availableColumns s') ∧ (newName ∈ configured s')
    ∧ (name c ∈ availableColumns s') ∧ (name c ∉ configured s')
    ∧ (∀ x, x ≠ newName → x ≠ name c →
            ((x ∈ availableColumns s') ↔ (x ∈ availableColumns s))
            ∧ ((x ∈ configured s') ↔ (x ∈ configured s))).
Proof.
  intros [c Hc]%in_range_get Hnew Hwf s'. subst s'. unfold renameColumn.
  rewrite (handleColumnSelect_Some _ _ _ _ Hc). simpl.
  exists c. split; [done|]. split; [done|].
  split; [by eapply get_insert_same|].
  pose proof Hc as [Hi Hlook]%get_Some.
  split; [intros j Hj; by apply get_insert_other|].
  split; [by rewrite length_insert|].
  assert (configured s !! Z.to_nat index = Some (name c)) as Hname
    by (unfold configured; by rewrite list_lookup_fmap, Hlook).
  apply NoDup_app in Hwf as (Hnames & Hdisj & Hpool).
  assert (name c ∈ configured s) as Hold by (by eapply list_elem_of_lookup_2).
  assert (newName ≠ name c) as Hne by (intros ->; by apply (Hdisj (name c))).
  pose proof (delete_Permutation _ _ _ Hname) as Hdel.
  pose proof (insert_Permutation _ _ newName _ Hname) as Hins.
  remember (delete (Z.to_nat index) (configured s)) as d eqn:Hd. clear Hd.
  assert (∀ x, x ∈ configured s ↔ x = name c ∨ x ∈ d) as Hmem
    by (intros x; by rewrite Hdel, elem_of_cons).
  assert (∀ x, x ∈ <[Z.to_nat index:=newName]> (configured s)
               ↔ x = newName ∨ x ∈ d) as Hmem'
    by (intros x; by rewrite Hins, elem_of_cons).
  assert (name c ∉ d) as Hgone.
  { rewrite Hdel in Hnames. by apply NoDup_cons in Hnames as [? _]. }
  clear Hdel Hins Hname Hlook Hc.
  unfold configured in *. simpl. rewrite list_fmap_insert. simpl.
  unfold sort_strings.
  setoid_rewrite sort_elem_of. setoid_rewrite elem_of_app.
  setoid_rewrite list_elem_of_filter. setoid_rewrite list_elem_of_singleton.
  setoid_rewrite Hmem'. setoid_rewrite Hmem.
  split; [intuition congruence|]. split; [by left|]. split; [by right|].
  split; [intuition congruence|].
  intros x Hx1 Hx2. split; intuition congruence.
Qed.

Lemma renameColumn_swaps_membership_witness :
  let s := run [AddColumn; AddColumn] initialState in
  in_range 0 s ∧ "location" ∈ availableColumns s
  ∧ NoDup (configured s ++ availableColumns s)
  ∧ ("location" ∉ availableColumns (next (renameColumn 0 "location" s)))
  ∧ ("store_id" ∈ availableColumns (next (renameColumn 0 "location" s))).
Proof.
  intros s.
  assert (in_range 0 s) as Hin by (unfold in_range; simpl; lia).
  assert ("location" ∈ availableColumns s) as Hnew
    by (apply (bool_decide_unpack _); vm_compute; reflexivity).
  assert (NoDup (configured s ++ availableColumns s)) as Hwf
    by (apply (bool_decide_unpack _); vm_compute; reflexivity).
  split; [exact Hin|]. split; [exact Hnew|]. split; [exact Hwf|].
  destruct (renameColumn_swaps_membership s 0 "location" Hin Hnew Hwf)
    as (c & Hc & _ & _ & _ & _ & Hout & _ & Hback & _).
  split; [exact Hout|].
  assert (name c = "store_id") as <-; [|exact Hback].
  vm_compute in Hc. by injection Hc as <-.
Defined.

(** ** The order of the pool *)

Lemma pool_sorted_tail s n rest :
  availableColumns s = n :: rest → pool_sorted s →
  StronglySorted String.le rest ∧ Forall (String.le n) rest.
Proof.
  unfold pool_sorted. intros -> Hs. by apply StronglySorted_inv in Hs.
Qed.

Lemma pool_sorted_add s : pool_sorted s → pool_sorted (next (addColumnConfig s)).
Proof.
  intros Hs. destruct (availableColumns s) as [|n rest] eqn:Hpool.
  - by rewrite addColumnConfig_nil.
  - rewrite (addColumnConfig_cons _ _ _ Hpool). unfold pool_sorted. simpl.
    by destruct (pool_sorted_tail _ _ _ Hpool Hs).
Qed.

Lemma pool_sorted_remove s i :
  pool_sorted s ∨ in_range i s → pool_sorted (next (removeColumnConfig i s)).
Proof.
  intros Hs. destruct (JsArray.get (columnConfigs s) i) as [c|] eqn:Hc.
  - rewrite (removeColumnConfig_Some _ _ _ Hc). apply sort_strings_sorted.
  - unfold removeColumnConfig. rewrite Hc. simpl.
    destruct Hs as [Hs|[c Hc']%in_range_get]; [done|congruence].
Qed.

Lemma pool_sorted_rename s i n :
  pool_sorted s ∨ in_range i s → pool_sorted (next (handleColumnSelect i n s)).
Proof.
  intros Hs. destruct (JsArray.get (columnConfigs s) i) as [c|] eqn:Hc.
  - rewrite (handleColumnSelect_Some _ _ _ _ Hc). apply sort_strings_sorted.
  - unfold handleColumnSelect. rewrite Hc. simpl.
    destruct Hs as [Hs|[c Hc']%in_range_get]; [done|congruence].
Qed.

Lemma pool_sorted_apply_op o s :
  pool_sorted s → pool_sorted (next (apply_op o s)).
Proof.
  intros Hs. destruct o; simpl.
  - by apply pool_sorted_add.
  - apply pool_sorted_remove. by left.
  - apply pool_sorted_rename. by left.
Qed.

Lemma pool_sorted_run ops s : pool_sorted s → pool_sorted (run ops s).
Proof.
  revert s. induction ops as [|o ops IH]; intros s Hs; simpl; [done|].
  by apply IH, pool_sorted_apply_op.
Qed.

Lemma pool_sorted_returns o s :
  returns_a_name o s → pool_sorted (next (apply_op o s)).
Proof.
  destruct o; simpl; [done| |]; intros Hin.
  - apply pool_sorted_remove. by right.
  - apply pool_sorted_rename. by right.
Qed.

(** C10: a [removeColumn] or [renameColumn] at an index in range leaves the
    pool in ascending order; [addColumn] drops the first name of the pool and
    keeps the others in their order; so after such an operation, whatever
    admissible operations follow, the name [addColumn] claims is the least
    name of the pool.  On the initial state, one [addColumn] and one [removeColumn] later
    that name is [cluster_ipv4_cidr], not [zone_name], the next name of the
    hard-coded list. *)
Theorem pool_sorted_after_return (s : AppState) (o : op) (ops : list op) :
  returns_a_name o s →
  admissible_sequence ops (next (apply_op o s)) →
  pool_sorted (next (apply_op o s))
  ∧ (∀ s0 n rest, availableColumns s0 = n :: rest →
                  availableColumns (next (addColumn s0)) = rest)
  ∧ (let s' := run ops (next (apply_op o s)) in
     pool_sorted s'
     ∧ ∀ n rest, availableColumns s' = n :: rest →
         columnConfigs (next (addColumn s')) = columnConfigs s' ++ [fresh_config n]
         ∧ ∀ m, m ∈ availableColumns s' → String.le n m)
  ∧ (let s1 := run [AddColumn; RemoveColumn 0] initialState in
     availableColumns initialState !! 1%nat = Some "zone_name"
     ∧ name <$> columnConfigs (next (addColumn s1)) = ["cluster_ipv4_cidr"]).
Proof.
  intros Ho _. pose proof (pool_sorted_returns _ _ Ho) as Hsorted.
  split; [done|]. split.
  { intros s0 n rest Hpool. unfold addColumn.
    by rewrite (addColumnConfig_cons _ _ _ Hpool). }
  split; [|by vm_compute].
  intros s'. assert (pool_sorted s') as Hs' by by apply pool_sorted_run.
  split; [done|]. intros n rest Hpool. unfold addColumn.
  rewrite (addColumnConfig_cons _ _ _ Hpool). split; [done|].
  destruct (pool_sorted_tail _ _ _ Hpool Hs') as [_ Hle].
  rewrite Hpool. intros m [->|Hm]%elem_of_cons; [done|].
  by eapply Forall_forall in Hle.
Qed.

Lemma pool_sorted_after_return_witness :
  let s := run [AddColumn; AddColumn; AddColumn] initialState in
  let ops := [AddColumn; RemoveColumn 0] in
  let s' := run ops (next (apply_op (RemoveColumn 1) s)) in
  returns_a_name (RemoveColumn 1) s
  ∧ admissible_sequence ops (next (apply_op (RemoveColumn 1) s))
  ∧ pool_sorted s'
  ∧ ∀ m, m ∈ availableColumns s' → String.le "cluster_name" m.
Proof.
  intros s ops s'.
  assert (returns_a_name (RemoveColumn 1) s) as Ho
    by (unfold returns_a_name, in_range; simpl; lia).
  assert (admissible_sequence ops (next (apply_op (RemoveColumn 1) s))) as Hops
    by (apply (bool_decide_unpack _); vm_compute; reflexivity).
  split; [exact Ho|]. split; [exact Hops|].
  destruct (pool_sorted_after_return s (RemoveColumn 1) ops Ho Hops)
    as (_ & _ & [Hs Hleast] & _).
  split; [exact Hs|].
  refine (proj2 (Hleast "cluster_name" _ _)). vm_compute. reflexivity.
Defined.

(** * The YAML emitter *)

(** ** Objects as maps *)

Section object_facts.
Context {V : Type}.
Implicit Types (o : JsObject.t V) (k : string) (v : V).

Lemma with_key_absent k o : k ∉ o.*1 → with_key k o = [].
Proof.
  unfold with_key. induction o as [|[k' v'] o IH]; [done|].
  rewrite fmap_cons. intros [Hne Hk]%not_elem_of_cons.
  rewrite filter_cons_False by (simpl in *; congruence). by apply IH.
Qed.

Lemma assign_keys k v o :
  (JsObject.assign k v o).*1 = if decide (k ∈ o.*1) then o.*1 else o.*1 ++ [k].
Proof.
  induction o as [|[k' v'] o IH].
  - by rewrite decide_False by apply not_elem_of_nil.
  - cbn [JsObject.assign]. rewrite (fmap_cons fst (k', v') o). cbn [fst].
    destruct (decide (k' = k)) as [->|Hne].
    + by rewrite decide_True by apply list_elem_of_here.
    + rewrite fmap_cons, IH. cbn [fst].
      destruct (decide (k ∈ o.*1)) as [Hin|Hout].
      * by rewrite decide_True by (by apply list_elem_of_further).
      * rewrite decide_False; [done|].
        intros [?|?]%elem_of_cons; congruence.
Qed.

Lemma assign_NoDup k v o : NoDup o.*1 → NoDup (JsObject.assign k v o).*1.
Proof.
  intros Ho. rewrite assign_keys. case_decide as Hk; [done|].
  apply NoDup_app. split; [done|]. split; [|apply NoDup_singleton].
  intros x Hx ->%list_elem_of_singleton. done.
Qed.

Lemma assign_with_key_same k v o :
  NoDup o.*1 → with_key k (JsObject.assign k v o) = [(k, v)].
Proof.
  unfold with_key. induction o as [|[k' v'] o IH]; intros Ho.
  - cbn [JsObject.assign]. by rewrite filter_cons_True.
  - rewrite fmap_cons in Ho. apply NoDup_cons in Ho as [Hk' Ho].
    cbn [JsObject.assign]. destruct (decide (k' = k)) as [->|Hne].
    + rewrite filter_cons_True by done. f_equal. by apply with_key_absent.
    + rewrite filter_cons_False by done. by apply IH.
Qed.

Lemma assign_with_key_other k k' v o :
  k' ≠ k → with_key k' (JsObject.assign k v o) = with_key k' o.
Proof.
  unfold with_key. intros Hne. induction o as [|[k0 v0] o IH].
  - cbn [JsObject.assign]. by rewrite filter_cons_False by (simpl; congruence).
  - cbn [JsObject.assign]. destruct (decide (k0 = k)) as [->|Hne0].
    + by rewrite !filter_cons_False by (simpl; congruence).
    + destruct (decide (k0 = k')) as [->|Hne'].
      * rewrite !filter_cons_True by done. by rewrite IH.
      * rewrite !filter_cons_False by done. by rewrite IH.
Qed.

Lemma set_NoDup k v o : NoDup o.*1 → NoDup (JsObject.set k v o).*1.
Proof. unfold JsObject.set. case_decide; [done|]. apply assign_NoDup. Qed.

Lemma indexed_named_Permutation o :
  (JsObject.indexed o).*2 ++ JsObject.named o ≡ₚ o.
Proof.
  unfold JsObject.indexed, JsObject.named.
  induction o as [|[k v] o IH]; [done|]. cbn [omap list_omap fst].
  destruct (JsObject.array_index k) as [n|] eqn:Hk; cbn [fmap option_fmap option_map].
  - rewrite filter_cons_False by (simpl in *; congruence).
    rewrite fmap_cons. simpl. by rewrite IH.
  - rewrite filter_cons_True by done. by rewrite <-Permutation_middle, IH.
Qed.

Lemma entries_Permutation o : JsObject.entries o ≡ₚ o.
Proof.
  unfold JsObject.entries.
  by rewrite sort_Permutation, indexed_named_Permutation.
Qed.

(** A single entry with a key sits between entries with other keys. *)
Lemma with_key_singleton_split k v (es : list (string * V)) :
  with_key k es = [(k, v)] →
  ∃ before after,
    es = before ++ (k, v) :: after ∧ (k ∉ before.*1) ∧ (k ∉ after.*1).
Proof.
  unfold with_key. induction es as [|[k' v'] es IH]; [done|].
  destruct (decide (k' = k)) as [->|Hne].
  - rewrite filter_cons_True by done. intros [= -> Hrest].
    exists [], es. split; [done|]. split; [apply not_elem_of_nil|].
    intros [[k0 v0] [-> Hin]]%list_elem_of_fmap. simpl in *.
    assert ((k0, v0) ∈ filter (λ kv : string * V, kv.1 = k0) es) as Hf
      by (by apply list_elem_of_filter).
    rewrite Hrest in Hf. by apply elem_of_nil in Hf.
  - rewrite filter_cons_False by done. intros Hes.
    destruct (IH Hes) as (before & after & -> & Hb & Ha).
    exists ((k', v') :: before), after. split; [done|]. split; [|done].
    rewrite fmap_cons. apply not_elem_of_cons. by split.
Qed.
End object_facts.

(** ** The object the emitter builds *)

Lemma config_of_snoc l c :
  config_of (l ++ [c]) = JsObject.set (name c) (validation c) (config_of l).
Proof. unfold config_of. by rewrite foldl_app. Qed.

Lemma config_of_NoDup l : NoDup (config_of l).*1.
Proof.
  induction l as [|c l IH] using rev_ind; [constructor|].
  rewrite config_of_snoc. by apply set_NoDup.
Qed.

(** The last configuration with a name decides the rule stored under it. *)
Lemma config_of_last_wins l1 c l2 :
  name c ≠ "__proto__" →
  (∀ c', c' ∈ l2 → name c' ≠ name c) →
  with_key (name c) (config_of (l1 ++ c :: l2)) = [(name c, validation c)].
Proof.
  intros Hproto. induction l2 as [|c' l2 IH] using rev_ind; intros Hlater.
  - rewrite config_of_snoc. unfold JsObject.set.
    rewrite decide_False by done.
    apply assign_with_key_same, config_of_NoDup.
  - replace (l1 ++ c :: l2 ++ [c']) with ((l1 ++ c :: l2) ++ [c'])
      by (by rewrite <-(assoc_L (++))).
    rewrite config_of_snoc. unfold JsObject.set.
    assert (name c' ≠ name c) as Hne
      by (apply Hlater, elem_of_app; right; apply list_elem_of_here).
    assert (with_key (name c) (config_of (l1 ++ c :: l2))
            = [(name c, validation c)]) as Hrec.
    { apply IH. intros c0 Hc0. apply Hlater, elem_of_app. by left. }
    case_decide; [done|]. by rewrite assign_with_key_other.
Qed.

Lemma entries_with_key k (o : JsObject.t ValidationRule) v :
  with_key k o = [(k, v)] → with_key k (JsObject.entries o) = [(k, v)].
Proof.
  intros Ho. apply Permutation_singleton_r. rewrite <-Ho. unfold with_key.
  apply filter_Permutation, entries_Permutation.
Qed.

(** ** Text *)

Lemma append_cons x (a b : string) : String x a +:+ b = String x (a +:+ b).
Proof. reflexivity. Qed.

Lemma append_assoc (a b c : string) : (a +:+ b) +:+ c = a +:+ b +:+ c.
Proof.
  induction a as [|x a IH]; [done|]. rewrite !append_cons. by f_equal.
Qed.

Lemma prefix_append (a b : string) : String.prefix a (a +:+ b) = true.
Proof.
  induction a as [|x a IH]; [by destruct b|].
  rewrite append_cons. cbn [String.prefix].
  destruct (ascii_dec x x); [done|congruence].
Qed.

(** The template of an entry writes the lines the specification lists. *)
Lemma entry_is_its_lines column rules :
  entry (column, rules) = JsArray.join nl (entry_lines column rules).
Proof.
  destruct rules as [ty re av mn mx]. unfold entry, entry_lines, field_line.
  cbn [JsArray.join type regex allowedValues min max].
  destruct ty as [ty|], re as [re|], av as [av|], mn as [mn|], mx as [mx|];
    cbn [default from_option id mbind option_bind fmap option_fmap option_map];
    try destruct (decide (re = "")) as [->|Hre];
    rewrite ?append_assoc; reflexivity.
Qed.

Lemma emit_at_entry l k v before after :
  JsObject.entries (config_of l) = before ++ (k, v) :: after →
  emit l
  = header +:+
    JsArray.join nl
      ((entry <$> before) ++ JsArray.join nl (entry_lines k v) :: (entry <$> after))
    +:+ nl.
Proof.
  intros Hes. unfold emit, generateYamlConfig.
  by rewrite Hes, fmap_app, fmap_cons, entry_is_its_lines.
Qed.

Lemma entries_of_last l1 c l2 :
  name c ≠ "__proto__" →
  (∀ c', c' ∈ l2 → name c' ≠ name c) →
  with_key (name c) (JsObject.entries (config_of (l1 ++ c :: l2)))
  = [(name c, validation c)].
Proof. intros. by apply entries_with_key, config_of_last_wins. Qed.

Lemma NoDup_names_later (l1 l2 : list ColumnConfig) c :
  NoDup (name <$> l1 ++ c :: l2) → ∀ c', c' ∈ l2 → name c' ≠ name c.
Proof.
  rewrite fmap_app, fmap_cons. intros (_ & _ & Hnd)%NoDup_app.
  apply NoDup_cons in Hnd as [Hc _]. intros c' Hc' Heq. apply Hc.
  rewrite <-Heq. by apply list_elem_of_fmap_2.
Qed.

(** ** The document *)

(** C7: [emit] returns a document for every list of configurations, made of
    the header comment block, a body and a final line break; for the empty
    list there is no entry and the document is the header, whose last line is
    [validations:], followed by an empty line. *)
Theorem emit_total (columnConfigs : list ColumnConfig) :
  (∃ document body,
     emit columnConfigs = document
     ∧ document = header +:+ body +:+ nl
     ∧ String.prefix header document = true)
  ∧ JsObject.entries (config_of []) = []
  ∧ emit []
    = "# Validation Configuration" +:+ nl +:+
      "# This file defines the validation rules for your data." +:+ nl +:+
      "# Each column in your data file should have an entry here." +:+ nl +:+
      nl +:+
      "validations:" +:+ nl +:+
      nl.
Proof.
  split; [|by split].
  eexists _, _. split; [reflexivity|]. split; [reflexivity|].
  apply prefix_append.
Qed.

(** C8: a configuration of a list without repeated names has its mapping
    entry in the document, keyed by its name, whose lines are: a [type] line
    ([string] when no type is set); a quoted [regex] line, only when a regex
    is present; an [allowed_values] line with the JSON list when allowed
    values are present and a blank line otherwise; a [min] and a [max] line
    exactly when the value is present, so that 0 gives [min: 0] and [max: 0].
    The document of the single configuration of [zone_name] as an integer
    from 0 to 10 has the [zone_name:] entry with [type: integer], [min: 0]
    and [max: 10] and mentions neither [regex] nor [allowed_values]; the
    allowed values a and b are written as the JSON list of two quoted
    strings. *)
Theorem emit_entry_lines (columnConfigs : list ColumnConfig) (c : ColumnConfig) :
  c ∈ columnConfigs →
  NoDup (name <$> columnConfigs) →
  name c ≠ "__proto__" →
  let rules := validation c in
  let lines := entry_lines (name c) rules in
  (∃ before after,
     JsObject.entries (config_of columnConfigs)
     = before ++ (name c, rules) :: after
     ∧ (name c ∉ before.*1) ∧ (name c ∉ after.*1)
     ∧ emit columnConfigs
       = header +:+
         JsArray.join nl
           ((entry <$> before) ++ JsArray.join nl lines :: (entry <$> after))
         +:+ nl)
  ∧ lines !! 0%nat = Some ("  " +:+ name c +:+ ":")
  ∧ lines !! 1%nat
    = Some ("    type: " +:+
            match type rules with Some ty => type_text ty | None => "string" end)
  ∧ (lines !! 2%nat ≠ Some "    " → is_Some (regex rules))
  ∧ (∀ r, regex rules = Some r → r ≠ "" →
          lines !! 2%nat = Some ("    regex: " +:+ dquote +:+ r +:+ dquote))
  ∧ (lines !! 3%nat ≠ Some "    " ↔ is_Some (allowedValues rules))
  ∧ (∀ values, allowedValues rules = Some values →
               lines !! 3%nat
               = Some ("    allowed_values: " +:+ JSON_stringify values))
  ∧ (lines !! 4%nat ≠ Some "    " ↔ is_Some (min rules))
  ∧ (∀ n, min rules = Some n →
          lines !! 4%nat = Some ("    min: " +:+ number_text n))
  ∧ (min rules = Some (printed_as "0") → lines !! 4%nat = Some "    min: 0")
  ∧ (lines !! 5%nat ≠ Some "    " ↔ is_Some (max rules))
  ∧ (∀ n, max rules = Some n →
          lines !! 5%nat = Some ("    max: " +:+ number_text n))
  ∧ (max rules = Some (printed_as "0") → lines !! 5%nat = Some "    max: 0")
  ∧ length lines = 6%nat
  ∧ (let document :=
       emit [ {| name := "zone_name";
                 validation := {| type := Some TInteger; regex := None;
                                  allowedValues := None;
                                  min := Some (printed_as "0");
                                  max := Some (printed_as "10") |} |} ] in
     document
     = header +:+
       "  zone_name:" +:+ nl +:+
       "    type: integer" +:+ nl +:+
       "    " +:+ nl +:+
       "    " +:+ nl +:+
       "    min: 0" +:+ nl +:+
       "    max: 10" +:+ nl
     ∧ includes document "regex" = false
     ∧ includes document "allowed_values" = false)
  ∧ JSON_stringify ["a"; "b"]
    = "[" +:+ dquote +:+ "a" +:+ dquote +:+ "," +:+
      dquote +:+ "b" +:+ dquote +:+ "]".
Proof.
  intros Hc Hnd Hproto rules lines. split.
  { apply list_elem_of_split in Hc as (l1 & l2 & ->).
    pose proof (entries_of_last l1 c l2 Hproto (NoDup_names_later _ _ _ Hnd))
      as Hkey.
    apply with_key_singleton_split in Hkey as (before & after & Hes & Hb & Ha).
    exists before, after. split; [done|]. split; [done|]. split; [done|].
    by apply emit_at_entry. }
  split; [done|]. subst lines. unfold entry_lines, field_line.
  destruct rules as [ty re av mn mx].
  cbn [type regex allowedValues min max lookup list_lookup length].
  split; [by destruct ty|].
  split.
  { destruct re as [re|]; [by eauto|]. intros Hline. by destruct Hline. }
  split.
  { intros r [= ->] Hr. cbn [mbind option_bind]. by rewrite decide_False. }
  split.
  { destruct av as [av|]; cbn [fmap option_fmap option_map]; split;
      done. }
  split; [by intros values [= ->]|].
  split.
  { destruct mn as [mn|]; cbn [fmap option_fmap option_map]; split;
      done. }
  split; [by intros n [= ->]|].
  split; [by intros [= ->]|].
  split.
  { destruct mx as [mx|]; cbn [fmap option_fmap option_map]; split;
      done. }
  split; [by intros n [= ->]|].
  split; [by intros [= ->]|].
  split; [done|]. split; [|by vm_compute].
  split; [by vm_compute|]. split; by vm_compute.
Qed.

Lemma emit_entry_lines_witness :
  let c := {| name := "node_count";
              validation := {| type := Some TInteger; regex := None;
                               allowedValues := None;
                               min := Some (printed_as "0");
                               max := None |} |} in
  let columnConfigs := [fresh_config "store_id"; c] in
  c ∈ columnConfigs
  ∧ NoDup (name <$> columnConfigs)
  ∧ name c ≠ "__proto__"
  ∧ entry_lines (name c) (validation c) !! 4%nat = Some "    min: 0"
  ∧ entry_lines (name c) (validation c) !! 5%nat = Some "    ".
Proof.
  intros c columnConfigs.
  assert (c ∈ columnConfigs) as Hc
    by apply list_elem_of_further, list_elem_of_here.
  assert (NoDup (name <$> columnConfigs)) as Hnd
    by (apply (bool_decide_unpack _); vm_compute; reflexivity).
  assert (name c ≠ "__proto__") as Hproto by discriminate.
  split; [exact Hc|]. split; [exact Hnd|]. split; [exact Hproto|].
  destruct (emit_entry_lines columnConfigs c Hc Hnd Hproto)
    as (_ & _ & _ & _ & _ & _ & _ & _ & _ & Hmin & Hmax & _).
  split; [by apply Hmin|].
  destruct (decide (entry_lines (name c) (validation c) !! 5%nat = Some "    "))
    as [Hblank|Hline]; [exact Hblank|].
  apply Hmax in Hline. by destruct Hline.
Defined.

(** C9: when several configurations of the list carry one name, the document
    has exactly one entry for that name, and it carries the rule of the last
    of them: the configurations are stored under their names in an object
    before they are written, so an earlier one is overwritten. *)
Theorem emit_last_duplicate_wins
    (earlier later : list ColumnConfig) (c : ColumnConfig) :
  name c ≠ "__proto__" →
  (∀ c', c' ∈ later → name c' ≠ name c) →
  let columnConfigs := earlier ++ c :: later in
  with_key (name c) (JsObject.entries (config_of columnConfigs))
  = [(name c, validation c)]
  ∧ ∃ before after,
      JsObject.entries (config_of columnConfigs)
      = before ++ (name c, validation c) :: after
      ∧ (name c ∉ before.*1) ∧ (name c ∉ after.*1)
      ∧ emit columnConfigs
        = header +:+
          JsArray.join nl
            ((entry <$> before) ++ entry (name c, validation c)
               :: (entry <$> after))
          +:+ nl.
Proof.
  intros Hproto Hlater columnConfigs. subst columnConfigs.
  pose proof (entries_of_last earlier c later Hproto Hlater) as Hkey.
  split; [done|].
  apply with_key_singleton_split in Hkey as (before & after & Hes & Hb & Ha).
  exists before, after. split; [done|]. split; [done|]. split; [done|].
  unfold emit, generateYamlConfig.
  by rewrite Hes, fmap_app, fmap_cons.
Qed.

Lemma emit_last_duplicate_wins_witness :
  let integer := {| type := Some TInteger; regex := None; allowedValues := None;
                    min := Some (printed_as "0");
                    max := Some (printed_as "10") |} in
  let c := {| name := "zone_name"; validation := integer |} in
  let earlier := [fresh_config "zone_name"; fresh_config "store_id"] in
  let later := [fresh_config "location"] in
  name c ≠ "__proto__"
  ∧ (∀ c', c' ∈ later → name c' ≠ name c)
  ∧ with_key "zone_name" (JsObject.entries (config_of (earlier ++ c :: later)))
    = [("zone_name", integer)].
Proof.
  intros integer c earlier later.
  assert (name c ≠ "__proto__") as Hproto by discriminate.
  assert (∀ c', c' ∈ later → name c' ≠ name c) as Hlater
    by (intros c' ->%list_elem_of_singleton; discriminate).
  split; [exact Hproto|]. split; [exact Hlater|].
  exact (proj1 (emit_last_duplicate_wins earlier later c Hproto Hlater)).
Defined.

(** * Further properties of the store *)

Lemma get_delete_before {A} (l : list A) i j :
  j < i → JsArray.get (delete (Z.to_nat i) l) j = JsArray.get l j.
Proof.
  intros Hj. unfold JsArray.get. case_bool_decide; [done|].
  apply list_lookup_delete_lt. lia.
Qed.

Lemma get_delete_from {A} (l : list A) i j :
  0 ≤ i ≤ j → JsArray.get (delete (Z.to_nat i) l) j = JsArray.get l (j + 1).
Proof.
  intros Hj. unfold JsArray.get. rewrite !bool_decide_eq_false_2 by lia.
  rewrite list_lookup_delete_ge by lia. f_equal. lia.
Qed.

(** Two sorted arrangements of the same strings are the same list. *)
Lemma sort_strings_Permutation_eq (l1 l2 : list string) :
  l1 ≡ₚ l2 → sort_strings l1 = sort_strings l2.
Proof.
  intros Hp. apply (StronglySorted_unique String.le);
    [apply sort_strings_sorted..|].
  by rewrite !sort_strings_Permutation.
Qed.

Lemma sort_strings_sorted_id (l : list string) :
  StronglySorted String.le l → sort_strings l = l.
Proof.
  intros Hl. apply (StronglySorted_unique String.le);
    [apply sort_strings_sorted|done|apply sort_strings_Permutation].
Qed.

(** ** Removing at an index in range *)

(** X1: [removeColumnConfig] at an index in range: nothing is thrown, exactly the
    configuration stored at that index goes, the ones before keep their
    index, the ones after move down by one, the pool gains the name and is
    sorted; when no name was configured twice the name is no longer
    configured. *)
Theorem removeColumn_in_range (s : AppState) (index : Z) :
  in_range index s →
  let s' := next (removeColumnConfig index s) in
  ∃ c,
    JsArray.get (columnConfigs s) index = Some c
    ∧ thrown (removeColumnConfig index s) = None
    ∧ columnConfigs s' = delete (Z.to_nat index) (columnConfigs s)
    ∧ S (length (columnConfigs s')) = length (columnConfigs s)
    ∧ (∀ j, j < index →
            JsArray.get (columnConfigs s') j = JsArray.get (columnConfigs s) j)
    ∧ (∀ j, index ≤ j →
            JsArray.get (columnConfigs s') j
            = JsArray.get (columnConfigs s) (j + 1))
    ∧ availableColumns s' ≡ₚ name c :: availableColumns s
    ∧ pool_sorted s'
    ∧ (NoDup (configured s) → name c ∉ configured s').
Proof.
  intros Hin s'. subst s'. pose proof Hin as [c Hc]%in_range_get.
  rewrite (removeColumnConfig_Some _ _ _ Hc). simpl. exists c.
  pose proof Hc as [Hi Hlook]%get_Some.
  split; [done|]. split; [done|]. split; [done|].
  split.
  { rewrite length_delete by eauto. apply lookup_lt_Some in Hlook. lia. }
  split; [intros j Hj; by apply get_delete_before|].
  split; [intros j Hj; by apply get_delete_from|].
  split; [by rewrite sort_strings_Permutation, <-Permutation_cons_append|].
  split; [apply sort_strings_sorted|].
  unfold configured. simpl. intros Hnd. rewrite list_fmap_delete.
  rewrite (delete_Permutation (name <$> columnConfigs s) (Z.to_nat index) (name c))
    in Hnd by (by rewrite list_lookup_fmap, Hlook).
  by apply NoDup_cons in Hnd as [? _].
Qed.

Lemma removeColumn_in_range_witness :
  let s := run [AddColumn; AddColumn; AddColumn] initialState in
  in_range 1 s
  ∧ ∃ c, JsArray.get (columnConfigs s) 1 = Some c
         ∧ S (length (columnConfigs (next (removeColumnConfig 1 s))))
           = length (columnConfigs s)
         ∧ pool_sorted (next (removeColumnConfig 1 s)).
Proof.
  intros s.
  assert (in_range 1 s) as Hin by (unfold in_range; simpl; lia).
  split; [exact Hin|].
  destruct (removeColumn_in_range s 1 Hin)
    as (c & Hc & _ & _ & Hlen & _ & _ & _ & Hsorted & _).
  exists c. split; [exact Hc|]. split; [exact Hlen|exact Hsorted].
Defined.

(** ** When a handler fails *)

(** X2: An index out of range is the one thing that makes a handler fail,
    and it fails in one of two ways.  [removeColumnConfig] reads the row
    before it calls [setState]: a [TypeError] leaves the handler exactly when
    the index is out of range, and nothing fails at render.
    [handleColumnSelect] and [updateColumnConfig] read the row inside the
    updater: nothing ever leaves the handler, and the updater raises the
    [TypeError] at render, which unmounts the component, exactly when the
    index is out of range, whatever else they are given.  [addColumnConfig]
    fails in neither way. *)
Theorem handlers_throw_iff_out_of_range
    (s : AppState) (index : Z) (selectedColumn : string)
    (newConfig : PartialConfig) :
  (thrown (removeColumnConfig index s) = Some TypeError ↔ ¬ in_range index s)
  ∧ render_error (removeColumnConfig index s) = None
  ∧ thrown (handleColumnSelect index selectedColumn s) = None
  ∧ (render_error (handleColumnSelect index selectedColumn s) = Some TypeError
     ↔ ¬ in_range index s)
  ∧ thrown (updateColumnConfig index newConfig s) = None
  ∧ (render_error (updateColumnConfig index newConfig s) = Some TypeError
     ↔ ¬ in_range index s)
  ∧ thrown (addColumnConfig s) = None
  ∧ render_error (addColumnConfig s) = None.
Proof.
  assert (∀ c, JsArray.get (columnConfigs s) index = Some c → in_range index s)
    as Hsome by (intros c Hc; apply in_range_get; eauto).
  unfold removeColumnConfig, handleColumnSelect, updateColumnConfig,
    addColumnConfig.
  destruct (JsArray.get (columnConfigs s) index) as [c|] eqn:Hc; simpl.
  - specialize (Hsome c eq_refl).
    repeat split; try done; try (by intros ?); by destruct (availableColumns s).
  - assert (¬ in_range index s) as Hout
      by (intros [c Hc']%in_range_get; congruence).
    repeat split; try done; by destruct (availableColumns s).
Qed.

(** ** Undoing an operation *)

(** X3: Adding a column and removing it again (it is stored last) gives back
    the configurations; the pool holds the same names, now sorted, and is
    the pool as it was when that was sorted already. *)
Theorem add_then_remove_last (s : AppState) :
  availableColumns s ≠ [] →
  let s1 := next (addColumnConfig s) in
  let last := Z.of_nat (length (columnConfigs s)) in
  let s2 := next (removeColumnConfig last s1) in
  thrown (removeColumnConfig last s1) = None
  ∧ columnConfigs s2 = columnConfigs s
  ∧ availableColumns s2 = sort_strings (availableColumns s)
  ∧ (pool_sorted s → availableColumns s2 = availableColumns s).
Proof.
  intros Hpool s1 last s2. subst s1 last s2.
  destruct (availableColumns s) as [|n rest] eqn:Hs; [done|].
  rewrite (addColumnConfig_cons _ _ _ Hs). simpl.
  assert (JsArray.get (columnConfigs s ++ [fresh_config n])
            (Z.of_nat (length (columnConfigs s))) = Some (fresh_config n)) as Hget.
  { apply get_Some. split; [lia|]. rewrite Nat2Z.id.
    by rewrite lookup_app_r, Nat.sub_diag by lia. }
  erewrite removeColumnConfig_Some by exact Hget. simpl.
  split; [done|]. rewrite Nat2Z.id.
  assert (sort_strings (rest ++ [n]) = sort_strings (n :: rest)) as ->
    by (apply sort_strings_Permutation_eq; by rewrite <-Permutation_cons_append).
  split.
  { by rewrite delete_middle, app_nil_r. }
  split; [done|]. unfold pool_sorted. rewrite Hs. apply sort_strings_sorted_id.
Qed.

Lemma add_then_remove_last_witness :
  let s := run [AddColumn; RemoveColumn 0] initialState in
  availableColumns s ≠ []
  ∧ columnConfigs
      (next (removeColumnConfig 0 (next (addColumnConfig s))))
    = columnConfigs s
  ∧ availableColumns
      (next (removeColumnConfig 0 (next (addColumnConfig s))))
    = availableColumns s.
Proof.
  intros s.
  assert (availableColumns s ≠ []) as Hpool by discriminate.
  split; [exact Hpool|].
  destruct (add_then_remove_last s Hpool) as (_ & Hconfigs & _ & Hsame).
  split; [exact Hconfigs|]. apply Hsame.
  apply (pool_sorted_returns (RemoveColumn 0)).
  unfold returns_a_name, in_range. simpl. lia.
Defined.

Lemma filter_keeps_all {A} (P : A → Prop) `{∀ x, Decision (P x)} (l : list A) :
  Forall P l → filter P l = l.
Proof.
  induction 1 as [|x l Hx Hl IH]; [done|].
  rewrite filter_cons_True by done. by f_equal.
Qed.

(** X4: Renaming a column and renaming it back to its previous name gives back
    the configurations; the pool holds the same names, now sorted, and is the
    pool as it was when that was sorted already. *)
Theorem rename_then_rename_back (s : AppState) (index : Z) (newName : string) :
  in_range index s →
  newName ∈ availableColumns s →
  NoDup (configured s ++ availableColumns s) →
  ∃ c,
    JsArray.get (columnConfigs s) index = Some c
    ∧ let s1 := next (handleColumnSelect index newName s) in
      let s2 := next (handleColumnSelect index (name c) s1) in
      (name c ∈ availableColumns s1)
      ∧ thrown (handleColumnSelect index (name c) s1) = None
      ∧ columnConfigs s2 = columnConfigs s
      ∧ availableColumns s2 = sort_strings (availableColumns s)
      ∧ (pool_sorted s → availableColumns s2 = availableColumns s).
Proof.
  intros [c Hc]%in_range_get Hnew Hwf. exists c. split; [done|].
  rewrite (handleColumnSelect_Some _ _ _ _ Hc). cbn [next installed].
  pose proof Hc as [Hi Hlook]%get_Some.
  erewrite handleColumnSelect_Some
    by (cbn [columnConfigs]; by eapply get_insert_same).
  cbn [next installed thrown columnConfigs availableColumns name validation].
  apply NoDup_app in Hwf as (Hnames & Hdisj & Hpool).
  assert (name c ∉ availableColumns s) as Hold.
  { apply Hdisj. unfold configured. apply list_elem_of_fmap_2.
    by eapply list_elem_of_lookup_2. }
  assert (newName ≠ name c) as Hne by (by intros ->).
  split.
  { unfold sort_strings. rewrite sort_elem_of, elem_of_app.
    right. by apply list_elem_of_singleton. }
  split; [done|]. split.
  { rewrite list_insert_insert_eq. destruct c as [n v]. simpl.
    by apply list_insert_id. }
  assert (sort_strings
            (filter (λ col, col ≠ name c)
               (sort_strings
                  (filter (λ col, col ≠ newName) (availableColumns s)
                     ++ [name c])) ++ [newName])
          = sort_strings (availableColumns s)) as ->.
  { apply sort_strings_Permutation_eq.
    rewrite sort_strings_Permutation, filter_app.
    rewrite (filter_singleton_False _ _ []) by (by intros ?).
    rewrite app_nil_r, filter_keeps_all.
    - rewrite <-Permutation_cons_append. symmetry. by apply pool_without.
    - apply Forall_forall. intros x [_ Hx]%list_elem_of_filter ->. done. }
  split; [done|]. apply sort_strings_sorted_id.
Qed.

Lemma rename_then_rename_back_witness :
  let s := run [AddColumn; AddColumn; RemoveColumn 1] initialState in
  in_range 0 s ∧ "location" ∈ availableColumns s
  ∧ NoDup (configured s ++ availableColumns s)
  ∧ ∃ c, JsArray.get (columnConfigs s) 0 = Some c
         ∧ availableColumns
             (next (handleColumnSelect 0 (name c)
                      (next (handleColumnSelect 0 "location" s))))
           = availableColumns s.
Proof.
  intros s.
  assert (in_range 0 s) as Hin by (unfold in_range; simpl; lia).
  assert ("location" ∈ availableColumns s) as Hnew
    by (apply (bool_decide_unpack _); vm_compute; reflexivity).
  assert (NoDup (configured s ++ availableColumns s)) as Hwf
    by (apply (bool_decide_unpack _); vm_compute; reflexivity).
  split; [exact Hin|]. split; [exact Hnew|]. split; [exact Hwf|].
  destruct (rename_then_rename_back s 0 "location" Hin Hnew Hwf)
    as (c & Hc & _ & _ & _ & _ & Hsame).
  exists c. split; [exact Hc|]. apply Hsame.
  unfold pool_sorted. apply (bool_decide_unpack _). vm_compute. reflexivity.
Defined.

(** ** Renaming to a name that is not in the pool *)

(** X5: [handleColumnSelect] does not look at the name it is given.  Given the
    name the row already has, it leaves the configurations as they are and
    still puts the name into the pool: the name is then configured and
    available at once, so no collection of names is partitioned any more. *)
Theorem rename_to_own_name (s : AppState) (index : Z) :
  in_range index s →
  ∃ c,
    JsArray.get (columnConfigs s) index = Some c
    ∧ let s' := next (handleColumnSelect index (name c) s) in
      thrown (handleColumnSelect index (name c) s) = None
      ∧ columnConfigs s' = columnConfigs s
      ∧ (name c ∈ availableColumns s')
      ∧ (name c ∈ configured s')
      ∧ ∀ U, ¬ partitions U s'.
Proof.
  intros [c Hc]%in_range_get. exists c. split; [done|].
  rewrite (handleColumnSelect_Some _ _ _ _ Hc).
  cbn [next installed thrown columnConfigs availableColumns].
  pose proof Hc as [Hi Hlook]%get_Some.
  assert (<[Z.to_nat index:={| name := name c; validation := validation c |}]>
            (columnConfigs s) = columnConfigs s) as Hsame
    by (destruct c; by apply list_insert_id).
  assert (name c ∈ sort_strings
            (filter (λ col, col ≠ name c) (availableColumns s) ++ [name c]))
    as Hpool.
  { unfold sort_strings. rewrite sort_elem_of, elem_of_app.
    right. by apply list_elem_of_singleton. }
  assert (name c ∈ name <$> columnConfigs s) as Hconf
    by (apply list_elem_of_fmap_2; by eapply list_elem_of_lookup_2).
  split; [done|]. split; [done|]. split; [done|].
  unfold configured, partitions. cbn [columnConfigs availableColumns].
  rewrite Hsame. split; [done|].
  intros U [Hdisj _]. by apply (Hdisj (name c)).
Qed.

Lemma rename_to_own_name_witness :
  let s := run [AddColumn] initialState in
  in_range 0 s
  ∧ ∃ c, JsArray.get (columnConfigs s) 0 = Some c
         ∧ ¬ partitions universe (next (handleColumnSelect 0 (name c) s)).
Proof.
  intros s.
  assert (in_range 0 s) as Hin by (unfold in_range; simpl; lia).
  split; [exact Hin|].
  destruct (rename_to_own_name s 0 Hin) as (c & Hc & _ & _ & _ & _ & Hno).
  exists c. split; [exact Hc|exact (Hno universe)].
Defined.

(** X6: Given a name that another row holds, [handleColumnSelect] gives it to
    this row as well: two configurations then carry the name, and the
    previous name of the row is in the pool. *)
Theorem rename_to_claimed_name (s : AppState) (i j : Z) :
  in_range i s → in_range j s → i ≠ j →
  ∃ ci cj,
    JsArray.get (columnConfigs s) i = Some ci
    ∧ JsArray.get (columnConfigs s) j = Some cj
    ∧ let s' := next (handleColumnSelect i (name cj) s) in
      thrown (handleColumnSelect i (name cj) s) = None
      ∧ JsArray.get (columnConfigs s') i
        = Some {| name := name cj; validation := validation ci |}
      ∧ JsArray.get (columnConfigs s') j = Some cj
      ∧ ¬ NoDup (configured s')
      ∧ (name ci ∈ availableColumns s').
Proof.
  intros [ci Hci]%in_range_get [cj Hcj]%in_range_get Hij.
  exists ci, cj. split; [done|]. split; [done|].
  rewrite (handleColumnSelect_Some _ _ _ _ Hci).
  cbn [next installed thrown columnConfigs availableColumns].
  pose proof Hci as [Hi Hlooki]%get_Some.
  pose proof Hcj as [Hj Hlookj]%get_Some.
  split; [done|]. split; [by eapply get_insert_same|].
  split; [by rewrite get_insert_other|].
  split.
  - unfold configured. cbn [columnConfigs]. intros Hnd.
    assert (Z.to_nat i = Z.to_nat j); [|lia].
    eapply (NoDup_lookup _ _ _ (name cj) Hnd).
    + rewrite list_lookup_fmap, list_lookup_insert_eq
        by (by eapply lookup_lt_Some). done.
    + rewrite list_lookup_fmap, list_lookup_insert_ne by lia.
      by rewrite Hlookj.
  - unfold sort_strings. rewrite sort_elem_of, elem_of_app.
    right. by apply list_elem_of_singleton.
Qed.

Lemma rename_to_claimed_name_witness :
  let s := run [AddColumn; AddColumn] initialState in
  in_range 0 s ∧ in_range 1 s ∧ 0 ≠ 1
  ∧ ¬ NoDup (configured (next (handleColumnSelect 0 "zone_name" s))).
Proof.
  intros s.
  assert (in_range 0 s) as H0 by (unfold in_range; simpl; lia).
  assert (in_range 1 s) as H1 by (unfold in_range; simpl; lia).
  assert (0 ≠ 1) as Hne by lia.
  split; [exact H0|]. split; [exact H1|]. split; [exact Hne|].
  destruct (rename_to_claimed_name s 0 1 H0 H1 Hne)
    as (ci & cj & _ & Hcj & _ & _ & _ & Hdup & _).
  assert (name cj = "zone_name") as <-; [|exact Hdup].
  vm_compute in Hcj. by injection Hcj as <-.
Defined.

(** * Sessions: what every reachable state satisfies *)

Lemma update_keeps_names s i partial :
  configured (next (updateColumnConfig i (validation_only partial) s))
  = configured s
  ∧ availableColumns (next (updateColumnConfig i (validation_only partial) s))
    = availableColumns s.
Proof.
  destruct (JsArray.get (columnConfigs s) i) as [c|] eqn:Hc.
  - rewrite (updateColumnConfig_Some _ _ _ _ Hc). unfold configured. simpl.
    split; [|done]. apply get_Some in Hc as [_ Hc].
    rewrite list_fmap_insert. simpl.
    apply list_insert_id. by rewrite list_lookup_fmap, Hc.
  - unfold updateColumnConfig. by rewrite Hc.
Qed.

Lemma accounts_update s i partial :
  accounts s → accounts (next (updateColumnConfig i (validation_only partial) s)).
Proof.
  unfold accounts. by destruct (update_keeps_names s i partial) as [-> ->].
Qed.

Lemma accounts_perform a s :
  accounts s → sendable a s → accounts (next (perform a s)).
Proof.
  intros Hs Ha. destruct a; simpl in *;
    try (by apply accounts_update); try done.
  - by apply accounts_add.
  - by apply accounts_remove.
  - apply accounts_rename; [done|]. by destruct Ha.
Qed.

Lemma accounts_session acts s :
  accounts s → sendable_sequence acts s → accounts (session acts s).
Proof.
  revert s. induction acts as [|a acts IH]; intros s Hs Hacts; simpl; [done|].
  destruct Hacts as [Ha Hacts]. apply IH; [|done]. by apply accounts_perform.
Qed.

Lemma accounts_length s :
  accounts s →
  (length (columnConfigs s) + length (availableColumns s) = 24)%nat.
Proof.
  unfold accounts, configured. intros Hs.
  apply Permutation_length in Hs.
  by rewrite length_app, length_fmap, universe_length in Hs.
Qed.

Lemma accounts_NoDup_configured s : accounts s → NoDup (configured s).
Proof.
  intros Hs. unfold accounts in Hs.
  pose proof universe_NoDup as Hu. rewrite <-Hs in Hu.
  by apply NoDup_app in Hu as (? & _ & _).
Qed.

(** X7: Whatever the interface sends from the initial state, the configured
    columns and the pool add up to the 24 names, no name is configured
    twice, and the add button is disabled, and [addColumnConfig] changes
    nothing, exactly when all 24 columns are configured. *)
Theorem session_counts (acts : list action) :
  sendable_sequence acts initialState →
  let s := session acts initialState in
  (length (columnConfigs s) + length (availableColumns s) = 24)%nat
  ∧ NoDup (configured s)
  ∧ (addDisabled s = true ↔ length (columnConfigs s) = 24%nat)
  ∧ (next (addColumnConfig s) = s ↔ length (columnConfigs s) = 24%nat).
Proof.
  intros Hacts s.
  assert (accounts s) as Hs
    by (apply accounts_session; [apply accounts_initial|done]).
  pose proof (accounts_length s Hs) as Hlen.
  split; [done|]. split; [by apply accounts_NoDup_configured|].
  split.
  - unfold addDisabled. rewrite bool_decide_eq_true. lia.
  - destruct (availableColumns s) as [|n rest] eqn:Hpool.
    + rewrite addColumnConfig_nil by done. simpl in *. split; [lia|done].
    + rewrite (addColumnConfig_cons _ _ _ Hpool). simpl in *.
      split; [|lia]. intros Heq. apply (f_equal columnConfigs) in Heq.
      simpl in Heq. apply (f_equal length) in Heq.
      rewrite length_app in Heq. simpl in Heq. lia.
Qed.

Lemma session_counts_witness :
  let acts := [ClickAdd; ClickAdd; SelectColumn 0 "location";
               ChangeRegex 1 "^z"; ClickRemove 0; ClickSave] in
  sendable_sequence acts initialState
  ∧ (length (columnConfigs (session acts initialState))
     + length (availableColumns (session acts initialState)) = 24)%nat.
Proof.
  intros acts.
  assert (sendable_sequence acts initialState) as Hacts
    by (apply (bool_decide_unpack _); vm_compute; reflexivity).
  split; [exact Hacts|]. exact (proj1 (session_counts acts Hacts)).
Defined.

(** ** The saved mark and the YAML text *)

(** Case analysis on which path a handler takes. *)
Ltac handler_paths s :=
  unfold addColumnConfig, removeColumnConfig, handleColumnSelect,
    updateColumnConfig;
  match goal with
  | |- context [JsArray.get (columnConfigs s) ?i] =>
      destruct (JsArray.get (columnConfigs s) i)
  | |- _ => destruct (availableColumns s)
  end;
  simpl.

(** The path of a handler that finds its row. *)
Ltac row_path Hin :=
  match type of Hin with
  | in_range _ _ =>
      let c := fresh "c" in
      let Hrow := fresh "Hrow" in
      apply in_range_get in Hin as [c Hrow];
      unfold removeColumnConfig, handleColumnSelect, updateColumnConfig;
      rewrite Hrow; simpl; repeat split; auto
  end.

Lemma saved_is_current_perform a s :
  saved_is_current s → saved_is_current (next (perform a s)).
Proof.
  unfold saved_is_current. intros Hs.
  destruct a; simpl; try done; handler_paths s; done.
Qed.

(** X8: Whatever the interface sends from the initial state, whenever the saved
    mark is shown the text in the output box is the YAML of the
    configurations held at that moment; and the file a save would download
    then has the text the box shows after it. *)
Theorem saved_mark_is_current (acts : list action) :
  sendable_sequence acts initialState →
  let s := session acts initialState in
  (configSaved s = true → yamlConfig s = generateYamlConfig (columnConfigs s))
  ∧ file_content (handleSaveConfig s).2 = yamlConfig (next (perform ClickSave s))
  ∧ configSaved (next (perform ClickSave s)) = true.
Proof.
  intros _ s. split; [|done]. subst s.
  assert (saved_is_current initialState) as Hinit by done.
  revert Hinit. generalize initialState.
  induction acts as [|a acts IH]; intros s0 Hs0; simpl; [done|].
  by apply IH, saved_is_current_perform.
Qed.

Lemma saved_mark_is_current_witness :
  let acts := [ClickAdd; ChangeRegex 0 "^s"; ClickSave] in
  sendable_sequence acts initialState
  ∧ yamlConfig (session acts initialState)
    = generateYamlConfig (columnConfigs (session acts initialState)).
Proof.
  intros acts.
  assert (sendable_sequence acts initialState) as Hacts
    by (apply (bool_decide_unpack _); vm_compute; reflexivity).
  split; [exact Hacts|].
  apply (proj1 (saved_mark_is_current acts Hacts)). reflexivity.
Defined.

(** X9: No edit refreshes the YAML text: an action the interface can send,
    other than generate and save, leaves the text, and the loading and error
    fields, as they were, and either leaves the whole state or clears the
    saved mark. *)
Theorem edits_leave_yaml_text (a : action) (s : AppState) :
  sendable a s →
  a ≠ ClickGenerate → a ≠ ClickSave →
  let s' := next (perform a s) in
  thrown (perform a s) = None
  ∧ render_error (perform a s) = None
  ∧ yamlConfig s' = yamlConfig s
  ∧ loading s' = loading s
  ∧ error s' = error s
  ∧ (s' = s ∨ configSaved s' = false).
Proof.
  intros Ha Hgen Hsave. destruct a; simpl in Ha |- *; try done;
    try row_path Ha.
  - unfold addColumnConfig. destruct (availableColumns s); simpl;
      repeat split; auto.
  - destruct Ha as [Ha _]. row_path Ha.
Qed.

Lemma edits_leave_yaml_text_witness :
  let s := session [ClickAdd; ClickSave] initialState in
  sendable (ChangeRegex 0 "^s") s
  ∧ ChangeRegex 0 "^s" ≠ ClickGenerate ∧ ChangeRegex 0 "^s" ≠ ClickSave
  ∧ yamlConfig (next (perform (ChangeRegex 0 "^s") s)) = yamlConfig s
  ∧ yamlConfig s
    ≠ generateYamlConfig (columnConfigs (next (perform (ChangeRegex 0 "^s") s))).
Proof.
  intros s.
  assert (sendable (ChangeRegex 0 "^s") s) as Ha
    by (unfold sendable, in_range; simpl; lia).
  assert (ChangeRegex 0 "^s" ≠ ClickGenerate) as Hgen by discriminate.
  assert (ChangeRegex 0 "^s" ≠ ClickSave) as Hsave by discriminate.
  split; [exact Ha|]. split; [exact Hgen|]. split; [exact Hsave|].
  destruct (edits_leave_yaml_text _ s Ha Hgen Hsave) as (_ & _ & Hyaml & _).
  split; [exact Hyaml|]. vm_compute. discriminate.
Defined.

(** * The document of a stored list *)

Lemma assign_fresh {V} k (v : V) (o : JsObject.t V) :
  k ∉ o.*1 → JsObject.assign k v o = o ++ [(k, v)].
Proof.
  induction o as [|[k' v'] o IH]; [done|].
  rewrite fmap_cons. intros [Hne Hk]%not_elem_of_cons.
  cbn [JsObject.assign]. rewrite decide_False by (simpl in *; congruence).
  by rewrite IH.
Qed.

Lemma config_of_distinct (l : list ColumnConfig) :
  NoDup (name <$> l) →
  Forall (λ c, name c ≠ "__proto__") l →
  config_of l = as_entry <$> l.
Proof.
  induction l as [|c l IH] using rev_ind; [done|]. intros Hnd Hproto.
  rewrite fmap_app in Hnd. apply NoDup_app in Hnd as (Hnd & Hdisj & _).
  apply Forall_app in Hproto as [Hproto Hc]. rewrite Forall_singleton in Hc.
  rewrite config_of_snoc, IH by done. unfold JsObject.set.
  rewrite decide_False by done. rewrite assign_fresh; [by rewrite fmap_app|].
  rewrite <-list_fmap_compose. intros Hin. apply (Hdisj (name c)); [done|].
  simpl. apply list_elem_of_here.
Qed.

Lemma entries_without_indices {V} (o : JsObject.t V) :
  Forall (λ kv, JsObject.array_index kv.1 = None) o → JsObject.entries o = o.
Proof.
  intros Ho. unfold JsObject.entries, JsObject.named.
  rewrite (filter_keeps_all _ _ Ho).
  assert (JsObject.indexed o = []) as ->; [|done].
  unfold JsObject.indexed. induction Ho as [|[k v] o Hk Ho IH]; [done|].
  cbn [omap list_omap]. rewrite Hk. simpl. exact IH.
Qed.

Lemma document_of_plain_list (l : list ColumnConfig) :
  NoDup (name <$> l) →
  Forall (λ c, name c ≠ "__proto__" ∧ JsObject.array_index (name c) = None) l →
  JsObject.entries (config_of l) = as_entry <$> l
  ∧ generateYamlConfig l
    = header +:+
      JsArray.join nl ((λ c, entry (name c, validation c)) <$> l) +:+ nl.
Proof.
  intros Hnd Hplain.
  assert (JsObject.entries (config_of l) = as_entry <$> l) as Hes.
  { rewrite config_of_distinct; [| done |].
    - apply entries_without_indices, Forall_fmap.
      eapply Forall_impl; [exact Hplain|]. by intros c [_ ?].
    - eapply Forall_impl; [exact Hplain|]. by intros c [? _]. }
  split; [done|]. unfold generateYamlConfig.
  by rewrite Hes, <-list_fmap_compose.
Qed.

(** X10: For a list in which no name repeats and no name is [__proto__] or the
    numeral of an array index, the document has one entry per configuration,
    in the order of the list. *)
Theorem emit_in_list_order (columnConfigs : list ColumnConfig) :
  NoDup (name <$> columnConfigs) →
  Forall (λ c, name c ≠ "__proto__" ∧ JsObject.array_index (name c) = None)
    columnConfigs →
  JsObject.entries (config_of columnConfigs) = as_entry <$> columnConfigs
  ∧ generateYamlConfig columnConfigs
    = header +:+
      JsArray.join nl ((λ c, entry (name c, validation c)) <$> columnConfigs)
      +:+ nl.
Proof. intros Hnd Hplain. by apply document_of_plain_list. Qed.

Lemma emit_in_list_order_witness :
  let columnConfigs := [fresh_config "zone_name"; fresh_config "store_id"] in
  NoDup (name <$> columnConfigs)
  ∧ Forall (λ c, name c ≠ "__proto__" ∧ JsObject.array_index (name c) = None)
      columnConfigs
  ∧ JsObject.entries (config_of columnConfigs) = as_entry <$> columnConfigs.
Proof.
  intros columnConfigs.
  assert (NoDup (name <$> columnConfigs)) as Hnd
    by (apply (bool_decide_unpack _); vm_compute; reflexivity).
  assert (Forall (λ c, name c ≠ "__proto__"
                       ∧ JsObject.array_index (name c) = None) columnConfigs)
    as Hplain by (repeat constructor; discriminate).
  split; [exact Hnd|]. split; [exact Hplain|].
  exact (proj1 (emit_in_list_order columnConfigs Hnd Hplain)).
Defined.

Lemma universe_plain :
  Forall (λ n, n ≠ "__proto__" ∧ JsObject.array_index n = None) universe.
Proof. by apply (bool_decide_unpack _); vm_compute. Qed.

(** X11: Whatever the interface sends from the initial state, the YAML of the
    configurations held has one entry per configured column, in the order in
    which the columns are stored, which is not the order of the rows on
    screen. *)
Theorem session_document_order (acts : list action) :
  sendable_sequence acts initialState →
  let s := session acts initialState in
  generateYamlConfig (columnConfigs s)
  = header +:+
    JsArray.join nl ((λ c, entry (name c, validation c)) <$> columnConfigs s)
    +:+ nl.
Proof.
  intros Hacts s.
  assert (accounts s) as Hs
    by (apply accounts_session; [apply accounts_initial|done]).
  apply document_of_plain_list; [by apply accounts_NoDup_configured|].
  apply Forall_forall. intros c Hc.
  pose proof universe_plain as Hplain.
  eapply Forall_forall in Hplain; [exact Hplain|].
  unfold accounts in Hs. rewrite <-Hs. apply elem_of_app. left.
  unfold configured. by apply list_elem_of_fmap_2.
Qed.

Lemma session_document_order_witness :
  let acts := [ClickAdd; ClickAdd; ClickAdd] in
  sendable_sequence acts initialState
  ∧ name <$> sortedColumnConfigs (session acts initialState)
    ≠ name <$> columnConfigs (session acts initialState)
  ∧ generateYamlConfig (columnConfigs (session acts initialState))
    = header +:+
      JsArray.join nl
        ((λ c, entry (name c, validation c))
           <$> columnConfigs (session acts initialState))
      +:+ nl.
Proof.
  intros acts.
  assert (sendable_sequence acts initialState) as Hacts
    by (apply (bool_decide_unpack _); vm_compute; reflexivity).
  split; [exact Hacts|]. split; [vm_compute; discriminate|].
  exact (session_document_order acts Hacts).
Defined.

(** * The pool as a function of the configured names *)

(** X12: Once the pool is sorted it is determined by the configured names alone:
    it is the sorted list of the names of the universe that are not
    configured, whatever the operations that led there. *)
Theorem sorted_pool_is_complement (s : AppState) :
  accounts s → pool_sorted s →
  availableColumns s
  = sort_strings (filter (λ n, n ∉ configured s) universe).
Proof.
  intros Hs Hsorted. apply (StronglySorted_unique String.le);
    [done|apply sort_strings_sorted|].
  rewrite sort_strings_Permutation.
  pose proof universe_NoDup as Hu. unfold accounts in Hs.
  assert (NoDup (configured s ++ availableColumns s)) as Hnd by (by rewrite Hs).
  apply NoDup_app in Hnd as (_ & Hdisj & Hpool).
  apply NoDup_Permutation; [done|by apply NoDup_filter|].
  intros x. rewrite list_elem_of_filter, <-Hs, elem_of_app. split.
  - intros Hx. split; [|by right]. intros Hc. by apply (Hdisj x).
  - intros [Hc [Hx|Hx]]; done.
Qed.

Lemma sorted_pool_is_complement_witness :
  let s := session [ClickAdd; ClickAdd; SelectColumn 1 "sync_dir"] initialState in
  accounts s ∧ pool_sorted s
  ∧ availableColumns s
    = sort_strings (filter (λ n, n ∉ configured s) universe).
Proof.
  intros s.
  assert (accounts s) as Hs.
  { apply accounts_session; [apply accounts_initial|].
    apply (bool_decide_unpack _). vm_compute. reflexivity. }
  assert (pool_sorted s) as Hsorted
    by (unfold pool_sorted; apply (bool_decide_unpack _); vm_compute;
        reflexivity).
  split; [exact Hs|]. split; [exact Hsorted|].
  exact (sorted_pool_is_complement s Hs Hsorted).
Defined.

(** * What a row shows *)

(** X13: The options of the column select of a row, in a state that keeps the
    books: they are sorted and without repetition, they are the row's own
    name and the names of the pool, so any option other than the one shown
    is a name [handleColumnSelect] may be given. *)
Theorem columnOptions_are_own_name_and_pool (s : AppState) (c : ColumnConfig) :
  accounts s → c ∈ columnConfigs s →
  StronglySorted String.le (columnOptions s c)
  ∧ NoDup (columnOptions s c)
  ∧ length (columnOptions s c) = S (length (availableColumns s))
  ∧ (∀ v, v ∈ columnOptions s c ↔ v = name c ∨ v ∈ availableColumns s)
  ∧ (∀ v, v ∈ columnOptions s c → v ≠ name c → v ∈ availableColumns s).
Proof.
  intros Hs Hc. unfold columnOptions.
  assert (∀ v, v ∈ sort_strings (availableColumns s ++ [name c])
               ↔ v = name c ∨ v ∈ availableColumns s) as Hmem.
  { intros v. unfold sort_strings.
    rewrite sort_elem_of, elem_of_app, list_elem_of_singleton. tauto. }
  split; [apply sort_strings_sorted|]. split.
  { rewrite sort_strings_Permutation. apply NoDup_app.
    split; [by apply accounts_NoDup_pool|]. split; [|apply NoDup_singleton].
    intros x Hx ->%list_elem_of_singleton.
    destruct (accounts_partitions s Hs) as [Hdisj _].
    apply (Hdisj (name c)); [|done]. unfold configured.
    by apply list_elem_of_fmap_2. }
  split.
  { unfold sort_strings. rewrite sort_length, length_app. simpl. lia. }
  split; [done|]. intros v Hv Hne. apply Hmem in Hv. by destruct Hv.
Qed.

Lemma columnOptions_are_own_name_and_pool_witness :
  let s := session [ClickAdd; ClickAdd] initialState in
  let c := fresh_config "zone_name" in
  accounts s ∧ c ∈ columnConfigs s
  ∧ length (columnOptions s c) = 23%nat.
Proof.
  intros s c.
  assert (accounts s) as Hs.
  { apply accounts_session; [apply accounts_initial|].
    apply (bool_decide_unpack _). vm_compute. reflexivity. }
  assert (c ∈ columnConfigs s) as Hc
    by apply list_elem_of_further, list_elem_of_here.
  split; [exact Hs|]. split; [exact Hc|].
  destruct (columnOptions_are_own_name_and_pool s c Hs Hc)
    as (_ & _ & Hlen & _).
  exact Hlen.
Defined.

Section sorted_input.
Context {A : Type} (cmp : A → A → comparison) (R : relation A).
Hypothesis R_cmp : ∀ x y, R x y → cmp x y ≠ Gt.

Lemma sort_sorted_id (l : list A) : Sorted R l → JsArray.sort cmp l = l.
Proof.
  induction 1 as [|x l Hl IH Hhd]; [done|].
  cbn [JsArray.sort]. rewrite IH. destruct Hhd as [|y l' Hxy]; [done|].
  cbn [JsArray.sort_insert]. apply R_cmp in Hxy. by destruct (cmp x y).
Qed.
End sorted_input.

Lemma le_compare (x y : string) : String.le x y → String.compare x y ≠ Gt.
Proof.
  unfold String.le, String.leb. by destruct (String.compare x y).
Qed.

(** X14: While the configured names are names of the hard-coded list, the
    rows on screen are the stored configurations rearranged in ascending
    order of name, and row and stored configuration coincide at every index
    exactly when the configurations are stored in that order: only then does
    an index sent by a row name the configuration the row shows. *)
Theorem rows_match_storage_iff_sorted (s : AppState) :
  Forall (λ n, n ∈ universe) (configured s) →
  sortedColumnConfigs s ≡ₚ columnConfigs s
  ∧ Sorted (λ a b, String.le (name a) (name b)) (sortedColumnConfigs s)
  ∧ (sortedColumnConfigs s = columnConfigs s ↔ stored_in_display_order s)
  ∧ ((∀ i, JsArray.get (sortedColumnConfigs s) i
           = JsArray.get (columnConfigs s) i)
     ↔ stored_in_display_order s).
Proof.
  intros _.
  assert (Sorted (λ a b, String.le (name a) (name b)) (sortedColumnConfigs s))
    as Hsorted.
  { unfold sortedColumnConfigs, localeCompare. apply sort_Sorted.
    - intros x y. apply compare_le.
    - intros x y. apply compare_gt. }
  assert (sortedColumnConfigs s = columnConfigs s ↔ stored_in_display_order s)
    as Hiff.
  { split.
    - intros Heq. unfold stored_in_display_order. by rewrite <-Heq.
    - intros Hs. unfold sortedColumnConfigs, localeCompare.
      apply (sort_sorted_id _ (λ a b, String.le (name a) (name b)));
        [|done].
      intros x y. apply le_compare. }
  split; [apply sort_Permutation|]. split; [done|]. split; [done|].
  rewrite <-Hiff. split.
  - intros Hget. apply list_eq. intros n.
    specialize (Hget (Z.of_nat n)). unfold JsArray.get in Hget.
    rewrite !bool_decide_eq_false_2, !Nat2Z.id in Hget by lia. done.
  - by intros ->.
Qed.

Lemma rows_match_storage_iff_sorted_witness :
  let s := session [ClickAdd; ClickAdd; ClickAdd] initialState in
  Forall (λ n, n ∈ universe) (configured s)
  ∧ ¬ stored_in_display_order s
  ∧ Sorted (λ a b, String.le (name a) (name b)) (sortedColumnConfigs s).
Proof.
  intros s.
  assert (Forall (λ n, n ∈ universe) (configured s)) as Hnames
    by (apply (bool_decide_unpack _); vm_compute; reflexivity).
  split; [exact Hnames|].
  destruct (rows_match_storage_iff_sorted s Hnames) as (_ & Hsorted & Hiff & _).
  split; [|exact Hsorted].
  intros Hstored. apply Hiff in Hstored. vm_compute in Hstored. discriminate.
Defined.

(** * Editing a rule *)

Lemma spread_then (r : ValidationRule) (p q : PartialRule) :
  spread_rule (spread_rule r p) q = spread_rule r (then_partial p q).
Proof.
  destruct p as [[?|] [?|] [?|] [?|] [?|]], q as [[?|] [?|] [?|] [?|] [?|]];
    reflexivity.
Qed.

Lemma then_partial_same (p : PartialRule) : then_partial p p = p.
Proof. by destruct p as [[?|] [?|] [?|] [?|] [?|]]. Qed.

(** X15: Two updates of the rule at one index amount to one update with the two
    partial rules put together, the later one winning key by key; so giving
    the same partial rule twice is giving it once. *)
Theorem updateValidation_twice
    (s : AppState) (index : Z) (first second : PartialRule) :
  in_range index s →
  let s1 := next (updateValidation index first s) in
  thrown (updateValidation index second s1) = None
  ∧ columnConfigs (next (updateValidation index second s1))
    = columnConfigs (next (updateValidation index (then_partial first second) s))
  ∧ columnConfigs (next (updateValidation index first s1)) = columnConfigs s1.
Proof.
  intros [c Hc]%in_range_get s1. subst s1. unfold updateValidation.
  rewrite !(updateColumnConfig_Some _ _ _ _ Hc). cbn [next installed].
  pose proof Hc as [Hi Hlook]%get_Some.
  assert (∀ x, JsArray.get (<[Z.to_nat index:=x]> (columnConfigs s)) index
               = Some x) as Hget by (intros x; by eapply get_insert_same).
  erewrite !updateColumnConfig_Some by (cbn [columnConfigs]; apply Hget).
  cbn [next installed thrown columnConfigs name validation p_name
       p_validation spread_key default from_option id].
  split; [done|]. rewrite !list_insert_insert_eq, !spread_then.
  by rewrite then_partial_same.
Qed.

Lemma updateValidation_twice_witness :
  let s := session [ClickAdd] initialState in
  in_range 0 s
  ∧ (regex ∘ validation)
      <$> columnConfigs
            (next (updateValidation 0 (only_regex "^ab")
                     (next (updateValidation 0 (only_regex "^a") s))))
    = [Some "^ab"].
Proof.
  intros s.
  assert (in_range 0 s) as Hin by (unfold in_range; simpl; lia).
  split; [exact Hin|].
  destruct (updateValidation_twice s 0 (only_regex "^a") (only_regex "^ab") Hin)
    as (_ & -> & _).
  reflexivity.
Defined.

(** X16: Selecting a type changes the type and nothing else: the regex, the
    allowed values and the bounds stay in the rule and in its entry of the
    document, also when the new type hides their inputs. *)
Theorem type_change_keeps_hidden_fields
    (s : AppState) (index : Z) (ty : ValueType) :
  in_range index s →
  ∃ c c',
    JsArray.get (columnConfigs s) index = Some c
    ∧ row_after (SelectType index ty) s index = Some c'
    ∧ name c' = name c
    ∧ type (validation c') = Some ty
    ∧ regex (validation c') = regex (validation c)
    ∧ allowedValues (validation c') = allowedValues (validation c)
    ∧ min (validation c') = min (validation c)
    ∧ max (validation c') = max (validation c)
    ∧ (∀ k, k ≠ 1%nat →
            entry_lines (name c') (validation c') !! k
            = entry_lines (name c) (validation c) !! k)
    ∧ (ty ≠ TString → showsRegex c' = false)
    ∧ (ty = TBoolean → showsAllowedValues c' = false)
    ∧ (ty = TString ∨ ty = TBoolean → showsBounds c' = false).
Proof.
  intros [c Hc]%in_range_get. unfold row_after. cbn [perform].
  rewrite (updateColumnConfig_Some _ _ _ _ Hc). cbn [next installed columnConfigs].
  eexists c, _. split; [done|]. split; [by eapply get_insert_same|].
  destruct c as [n [ty0 re av mn mx]].
  cbn [name validation type regex allowedValues min max spread_key spread_rule
       validation_only only_type p_name p_validation p_type p_regex
       p_allowedValues p_min p_max default from_option id].
  repeat (split; [done|]).
  split; [by intros [|[|k]] Hk|].
  unfold showsRegex, showsAllowedValues, showsBounds. cbn [validation type].
  split; [|split].
  - intros Hty. apply bool_decide_eq_false_2. by intros [= ->].
  - intros ->. apply bool_decide_eq_false_2. intros [|[|]]; discriminate.
  - intros [-> | ->]; apply bool_decide_eq_false_2; intros [|]; discriminate.
Qed.

Lemma type_change_keeps_hidden_fields_witness :
  let s := session [ClickAdd; ChangeRegex 0 "^s"] initialState in
  in_range 0 s
  ∧ ∃ c', row_after (SelectType 0 TInteger) s 0 = Some c'
          ∧ showsRegex c' = false
          ∧ entry_lines (name c') (validation c') !! 2%nat
            = Some ("    regex: " +:+ dquote +:+ "^s" +:+ dquote).
Proof.
  intros s.
  assert (in_range 0 s) as Hin by (unfold in_range; simpl; lia).
  split; [exact Hin|].
  destruct (type_change_keeps_hidden_fields s 0 TInteger Hin)
    as (c & c' & Hc & Hrow & _ & _ & _ & _ & _ & _ & Hlines & Hhidden & _).
  exists c'. split; [exact Hrow|]. split; [by apply Hhidden|].
  rewrite Hlines by lia. vm_compute in Hc. by injection Hc as <-.
Defined.

(** * The allowed-values box *)

Lemma split_nonempty sep s : JsString.split sep s ≠ [].
Proof.
  destruct s as [|c rest]; [done|]. cbn [JsString.split].
  case_decide; [done|]. by destruct (JsString.split sep rest).
Qed.

Lemma split_cons_free sep c rest :
  JsString.split sep (String c rest) = [String c rest]
  ↔ c ≠ sep ∧ JsString.split sep rest = [rest].
Proof.
  cbn [JsString.split]. pose proof (split_nonempty sep rest) as Hne.
  case_decide as Hc; [split; [done|by intros [? _]]|].
  destruct (JsString.split sep rest) as [|piece pieces]; [done|]. split.
  - intros [= -> ->]. done.
  - intros [_ [= -> ->]]. done.
Qed.

Lemma split_pieces_free sep s :
  Forall (λ p, JsString.split sep p = [p]) (JsString.split sep s).
Proof.
  induction s as [|c rest IH]; [by repeat constructor|].
  cbn [JsString.split]. case_decide as Hc; [by constructor|].
  pose proof (split_nonempty sep rest) as Hne.
  destruct (JsString.split sep rest) as [|piece pieces]; [done|].
  apply Forall_cons in IH as [Hpiece Hpieces]. constructor; [|done].
  by apply split_cons_free.
Qed.

Lemma split_append_sep sep v t :
  JsString.split sep v = [v] →
  JsString.split sep (v +:+ String sep t) = v :: JsString.split sep t.
Proof.
  induction v as [|c v IH].
  - intros _. change (JsString.split sep (String sep t)
                      = "" :: JsString.split sep t).
    cbn [JsString.split]. by rewrite decide_True.
  - intros [Hc Hv]%split_cons_free. rewrite append_cons.
    cbn [JsString.split]. rewrite decide_False by done. by rewrite IH.
Qed.

Lemma free_append sep a b :
  JsString.split sep a = [a] → JsString.split sep b = [b] →
  JsString.split sep (a +:+ b) = [a +:+ b].
Proof.
  intros Ha Hb. induction a as [|c a IH]; [done|].
  apply split_cons_free in Ha as [Hc Ha]. rewrite append_cons.
  apply split_cons_free. auto.
Qed.

Lemma trimStart_free sep s :
  JsString.split sep s = [s] →
  JsString.split sep (JsString.trimStart s) = [JsString.trimStart s].
Proof.
  induction s as [|c rest IH]; [done|]. intros Hs. cbn [JsString.trimStart].
  destruct (JsString.is_space c); [|done].
  apply split_cons_free in Hs as [_ Hrest]. by apply IH.
Qed.

Lemma trimEnd_free sep s :
  JsString.split sep s = [s] →
  JsString.split sep (JsString.trimEnd s) = [JsString.trimEnd s].
Proof.
  induction s as [|c rest IH]; [done|].
  intros [Hc Hrest]%split_cons_free. cbn [JsString.trimEnd].
  specialize (IH Hrest).
  destruct (JsString.trimEnd rest) as [|d kept].
  - destruct (JsString.is_space c); [done|]. by apply split_cons_free.
  - by apply split_cons_free.
Qed.

Lemma trimStart_cases s :
  JsString.trimStart s = ""
  ∨ ∃ c rest, JsString.trimStart s = String c rest
              ∧ JsString.is_space c = false.
Proof.
  induction s as [|c rest IH]; [by left|]. cbn [JsString.trimStart].
  destruct (JsString.is_space c) eqn:Hc; [done|]. right. by exists c, rest.
Qed.

Lemma trimEnd_keeps_head c rest :
  JsString.is_space c = false →
  ∃ kept, JsString.trimEnd (String c rest) = String c kept.
Proof.
  intros Hc. cbn [JsString.trimEnd]. rewrite Hc.
  destruct (JsString.trimEnd rest); eauto.
Qed.

Lemma trimEnd_idem s :
  JsString.trimEnd (JsString.trimEnd s) = JsString.trimEnd s.
Proof.
  induction s as [|c rest IH]; [done|]. cbn [JsString.trimEnd].
  destruct (JsString.trimEnd rest) as [|d kept] eqn:Hrest.
  - destruct (JsString.is_space c) eqn:Hc; [done|].
    cbn [JsString.trimEnd]. by rewrite Hc.
  - cbn [JsString.trimEnd] in *. by rewrite IH.
Qed.

Lemma trim_idem s : JsString.trim (JsString.trim s) = JsString.trim s.
Proof.
  unfold JsString.trim.
  destruct (trimStart_cases s) as [->|(c & rest & -> & Hc)]; [done|].
  destruct (trimEnd_keeps_head c rest Hc) as [kept Hkept].
  rewrite Hkept. cbn [JsString.trimStart]. rewrite Hc, <-Hkept.
  apply trimEnd_idem.
Qed.

Lemma trim_free sep s :
  JsString.split sep s = [s] →
  JsString.split sep (JsString.trim s) = [JsString.trim s].
Proof. intros Hs. by apply trimEnd_free, trimStart_free. Qed.

Lemma parseAllowedValues_kept text :
  Forall kept_value (parseAllowedValues text).
Proof.
  unfold parseAllowedValues. apply Forall_forall.
  intros v [Hne [p [-> Hp]]%list_elem_of_fmap]%list_elem_of_filter.
  pose proof (split_pieces_free "," text) as Hfree.
  eapply Forall_forall in Hfree; [|exact Hp].
  split; [done|]. split; [by apply trim_free|apply trim_idem].
Qed.

(** What [parseAllowedValues] makes of the text [showAllowedValues] writes
    for kept values, behind a prefix that is empty or a space. *)
Lemma parse_joined (pre : string) (vs : list string) :
  pre = "" ∨ pre = " " →
  Forall kept_value vs → vs ≠ [] →
  filter (λ v, v ≠ "")
    (JsString.trim <$> JsString.split "," (pre +:+ JsArray.join ", " vs))
  = vs.
Proof.
  intros Hpre Hvs. revert pre Hpre.
  induction Hvs as [|v vs (Hne & Hfree & Htrim) Hvs IH];
    intros pre Hpre Hnonempty; [done|]. clear Hnonempty.
  assert (JsString.split "," pre = [pre]) as Hprefree
    by (by destruct Hpre as [-> | ->]).
  assert (JsString.trim (pre +:+ v) = v) as Hpretrim
    by (by destruct Hpre as [-> | ->]).
  destruct vs as [|w vs].
  - cbn [JsArray.join]. rewrite free_append by done.
    rewrite list_fmap_singleton, Hpretrim.
    by rewrite (filter_singleton_True _ _ []).
  - change (JsArray.join ", " (v :: w :: vs))
      with (v +:+ ", " +:+ JsArray.join ", " (w :: vs)).
    replace (pre +:+ v +:+ ", " +:+ JsArray.join ", " (w :: vs))
      with ((pre +:+ v) +:+ String "," (" " +:+ JsArray.join ", " (w :: vs)))
      by (by rewrite append_assoc).
    rewrite split_append_sep by (by apply free_append).
    rewrite fmap_cons, Hpretrim, filter_cons_True by done.
    f_equal. apply IH; [by right|done].
Qed.

(** X17: Every value [parseAllowedValues] returns is one the box keeps as typed
    (not empty, without a comma, without white space at either end), and
    parsing the text the box is given back for them returns them again:
    the stored values do not drift as the box is rendered and read. *)
Theorem parseAllowedValues_stable (text : string) :
  Forall kept_value (parseAllowedValues text)
  ∧ parseAllowedValues (showAllowedValues (Some (parseAllowedValues text)))
    = parseAllowedValues text
  ∧ parseAllowedValues (showAllowedValues None) = [].
Proof.
  pose proof (parseAllowedValues_kept text) as Hkept.
  split; [done|]. split; [|done]. cbn [showAllowedValues].
  destruct (decide (parseAllowedValues text = [])) as [->|Hne]; [done|].
  apply (parse_joined "" _ (or_introl eq_refl) Hkept Hne).
Qed.

(** X18: Values that are not empty, hold no comma and no white space at either
    end come back from the box as they were written into it, in order. *)
Theorem allowed_values_round_trip (values : list string) :
  Forall kept_value values →
  parseAllowedValues (showAllowedValues (Some values)) = values.
Proof.
  intros Hkept. cbn [showAllowedValues].
  destruct (decide (values = [])) as [->|Hne]; [done|].
  apply (parse_joined "" _ (or_introl eq_refl) Hkept Hne).
Qed.

Lemma allowed_values_round_trip_witness :
  let values := ["us-east1"; "europe west"; "a"] in
  Forall kept_value values
  ∧ parseAllowedValues (showAllowedValues (Some values)) = values.
Proof.
  intros values.
  assert (Forall kept_value values) as Hkept
    by (repeat constructor; discriminate).
  split; [exact Hkept|]. exact (allowed_values_round_trip values Hkept).
Defined.

(** * Emptying an input *)

Lemma row_after_update s index partial c :
  JsArray.get (columnConfigs s) index = Some c →
  JsArray.get
    (columnConfigs (next (updateColumnConfig index (validation_only partial) s)))
    index
  = Some {| name := name c; validation := spread_rule (validation c) partial |}.
Proof.
  intros Hc. rewrite (updateColumnConfig_Some _ _ _ _ Hc).
  cbn [next installed columnConfigs]. by eapply get_insert_same.
Qed.

(** X19: Emptying an input of a row does not always take its line out of the
    document: an emptied regex or bound leaves a blank line, while emptied
    allowed values stay in the rule as an empty list and are written as
    [allowed_values: []]. *)
Theorem emptied_inputs (s : AppState) (index : Z) :
  in_range index s →
  (∃ c', row_after (ChangeAllowedValues index "") s index = Some c'
         ∧ allowedValues (validation c') = Some []
         ∧ entry_lines (name c') (validation c') !! 3%nat
           = Some "    allowed_values: []")
  ∧ (∃ c', row_after (ChangeRegex index "") s index = Some c'
           ∧ regex (validation c') = Some ""
           ∧ entry_lines (name c') (validation c') !! 2%nat = Some "    ")
  ∧ (∃ c', row_after (ChangeMin index None) s index = Some c'
           ∧ min (validation c') = None
           ∧ entry_lines (name c') (validation c') !! 4%nat = Some "    ")
  ∧ (∃ c', row_after (ChangeMax index None) s index = Some c'
           ∧ max (validation c') = None
           ∧ entry_lines (name c') (validation c') !! 5%nat = Some "    ").
Proof.
  intros [c Hc]%in_range_get. unfold row_after. cbn [perform].
  rewrite !(row_after_update _ _ _ _ Hc).
  repeat split; eexists; (split; [reflexivity|]); by destruct c as [n []].
Qed.

Lemma emptied_inputs_witness :
  let s := session [ClickAdd; ChangeAllowedValues 0 "a, b"] initialState in
  in_range 0 s
  ∧ ∃ c', row_after (ChangeAllowedValues 0 "") s 0 = Some c'
          ∧ entry_lines (name c') (validation c') !! 3%nat
            = Some "    allowed_values: []".
Proof.
  intros s.
  assert (in_range 0 s) as Hin by (unfold in_range; simpl; lia).
  split; [exact Hin|].
  destruct (emptied_inputs s 0 Hin) as ((c' & Hrow & _ & Hline) & _).
  exists c'. split; [exact Hrow|exact Hline].
Defined.

(** * The JSON list of allowed values *)

Lemma code_units_append (a b : string) :
  code_units (a +:+ b) = code_units a ++ code_units b.
Proof.
  unfold code_units. induction a as [|x a IH]; [done|].
  rewrite append_cons. cbn [String.list_ascii_of_string].
  rewrite !fmap_cons, IH. done.
Qed.

Lemma json_escape_printable (a : Ascii.ascii) :
  Forall (λ n, (32 ≤ n)%N) (code_units (json_escape a)).
Proof.
  destruct a as [[] [] [] [] [] [] [] []];
    by apply (bool_decide_unpack _); vm_compute.
Qed.

Lemma json_escape_string_printable (s : string) :
  Forall (λ n, (32 ≤ n)%N) (code_units (json_escape_string s)).
Proof.
  induction s as [|a s IH]; [constructor|].
  cbn [json_escape_string]. rewrite code_units_append.
  apply Forall_app. split; [apply json_escape_printable|done].
Qed.

Lemma json_quote_printable (s : string) :
  Forall (λ n, (32 ≤ n)%N) (code_units (json_quote s)).
Proof.
  unfold json_quote. rewrite !code_units_append, !Forall_app.
  split; [by repeat constructor|].
  split; [apply json_escape_string_printable|by repeat constructor].
Qed.

Lemma join_quotes_printable (values : list string) :
  Forall (λ n, (32 ≤ n)%N)
    (code_units (JsArray.join "," (json_quote <$> values))).
Proof.
  induction values as [|v values IH]; [constructor|].
  rewrite fmap_cons. destruct values as [|w values].
  - apply json_quote_printable.
  - change (JsArray.join "," (json_quote v :: (json_quote <$> (w :: values))))
      with (json_quote v +:+ "," +:+
            JsArray.join "," (json_quote <$> (w :: values))).
    rewrite !code_units_append, !Forall_app.
    split; [apply json_quote_printable|]. split; [by repeat constructor|done].
Qed.

(** X20: Whatever the allowed values are, line breaks and other control
    characters included, their line of the entry holds no code unit below
    32: the list stays on one line of the document. *)
Theorem allowed_values_line_printable (values : option (list string)) :
  Forall (λ n, (32 ≤ n)%N)
    (code_units (field_line "allowed_values" (JSON_stringify <$> values)))
  ∧ ∀ column rules,
      entry_lines column rules !! 3%nat
      = Some (field_line "allowed_values"
                (JSON_stringify <$> allowedValues rules)).
Proof.
  split; [|done]. unfold field_line.
  destruct values as [values|]; cbn [fmap option_fmap option_map];
    [|by repeat constructor].
  unfold JSON_stringify. rewrite !code_units_append, !Forall_app.
  split; [by repeat constructor|]. split; [by repeat constructor|].
  split; [by repeat constructor|]. split; [by repeat constructor|].
  split; [apply join_quotes_printable|by repeat constructor].
Qed.
